(** * Whiteboard synchronisation layer of the brainstorm board

    A shallow embedding of the client-side reconciliation code of
    [BrainstormBoard] and [CollaborativeCursors]: the pending change buffer
    and its fold rules, the debounced flush with its snapshot, the loop
    guard, the inbound merge, and the presence publisher and subscriber.

    JavaScript objects used as dictionaries are [gmap string _]; the two
    [useRef] cells are an address into a small heap of buffer objects and an
    optional timer; time is a natural number of milliseconds. *)

From stdpp Require Import gmap strings list fin_maps.
From Stdlib Require Import Ascii ZArith QArith Qround Lqa.

Local Open Scope nat_scope.

(** ** Records and change notifications *)

(** A [TLRecord] is opaque apart from its identity. *)
Record TLRecord := mkRecord { id : string; body : string }.

#[global] Instance TLRecord_eq_dec : EqDecision TLRecord.
Proof. solve_decision. Defined.

(** The [changes] part of a store notification.  The listener only ever walks
    [Object.values] of each of the three dictionaries, so each is the list of
    its values in iteration order.  An entry of [updated] is the pair
    [[prev, next]]; the listener guards against a missing [next]. *)
Record RecordsDiff := mkDiff {
  chg_added : list TLRecord;
  chg_updated : list (TLRecord * option TLRecord);
  chg_removed : list TLRecord
}.

Inductive ChangeSource := user | remote.

#[global] Instance ChangeSource_eq_dec : EqDecision ChangeSource.
Proof. solve_decision. Defined.

Record Notification := mkNotification {
  changes : RecordsDiff;
  source : ChangeSource
}.

(** ** The pending change-set and its fold rules *)

Module DeltaBuffer.

(** The object held in [pendingChanges.current]. *)
Record PendingChangeSet := mkPending {
  added : gmap string TLRecord;
  updated : gmap string TLRecord;
  removed : gmap string TLRecord
}.

#[global] Instance PendingChangeSet_eq_dec : EqDecision PendingChangeSet.
Proof. solve_decision. Defined.

(** [{ added: {}, updated: {}, removed: {} }] *)
Definition emptyPending : PendingChangeSet := mkPending ∅ ∅ ∅.

(** Body of the [changes.added] loop:
    [pending.added[rec.id] = rec; delete pending.removed[rec.id]]. *)
Definition handleAdded (pending : PendingChangeSet) (rec : TLRecord)
  : PendingChangeSet :=
  {| added := <[id rec := rec]> (added pending);
     updated := updated pending;
     removed := delete (id rec) (removed pending) |}.

(** Body of the [changes.updated] loop.  A stored record is an object and
    therefore truthy, so [if (pending.added[next.id])] tests presence. *)
Definition handleUpdated (pending : PendingChangeSet)
    (change : TLRecord * option TLRecord) : PendingChangeSet :=
  match change.2 with
  | None => pending
  | Some next =>
      match added pending !! id next with
      | Some _ =>
          {| added := <[id next := next]> (added pending);
             updated := updated pending;
             removed := removed pending |}
      | None =>
          {| added := added pending;
             updated := <[id next := next]> (updated pending);
             removed := delete (id next) (removed pending) |}
      end
  end.

(** Body of the [changes.removed] loop. *)
Definition handleRemoved (pending : PendingChangeSet) (rec : TLRecord)
  : PendingChangeSet :=
  match added pending !! id rec with
  | Some _ =>
      {| added := delete (id rec) (added pending);
         updated := updated pending;
         removed := removed pending |}
  | None =>
      {| added := added pending;
         updated := delete (id rec) (updated pending);
         removed := <[id rec := rec]> (removed pending) |}
  end.

(** Step 1 of the listener: the three loops, in source order. *)
Definition absorb (pending : PendingChangeSet) (c : RecordsDiff)
  : PendingChangeSet :=
  foldl handleRemoved
    (foldl handleUpdated
       (foldl handleAdded pending (chg_added c))
       (chg_updated c))
    (chg_removed c).

(** [hasChanges] of the flush callback. *)
Definition hasChanges (payload : PendingChangeSet) : bool :=
  negb (bool_decide (added payload = ∅))
  || negb (bool_decide (updated payload = ∅))
  || negb (bool_decide (removed payload = ∅)).

(** Single-operation notifications. *)
Definition add (r : TLRecord) : RecordsDiff := mkDiff [r] [] [].
Definition update (prev next : TLRecord) : RecordsDiff :=
  mkDiff [] [(prev, Some next)] [].
Definition remove (r : TLRecord) : RecordsDiff := mkDiff [] [] [r].

(** An id is in at most one of the three dictionaries. *)
Definition exclusive (p : PendingChangeSet) : Prop :=
  dom (added p) ## dom (updated p)
  ∧ dom (added p) ## dom (removed p)
  ∧ dom (updated p) ## dom (removed p).

#[global] Instance exclusive_dec p : Decision (exclusive p).
Proof. unfold exclusive. apply _. Defined.

(** [exclusive], id by id. *)
Definition exclusive_at (p : PendingChangeSet) (i : string) : Prop :=
  (added p !! i = None ∨ updated p !! i = None)
  ∧ (added p !! i = None ∨ removed p !! i = None)
  ∧ (updated p !! i = None ∨ removed p !! i = None).

(** No record of the notification is added while an update of it is
    pending. *)
Definition fresh_adds (p : PendingChangeSet) (c : RecordsDiff) : Prop :=
  Forall (λ r, updated p !! id r = None) (chg_added c).

Fixpoint fresh_history (p : PendingChangeSet) (cs : list RecordsDiff)
  : Prop :=
  match cs with
  | [] => True
  | c :: cs' => fresh_adds p c ∧ fresh_history (absorb p c) cs'
  end.

End DeltaBuffer.

(** ** The board component: store, listener, debounced flush *)

Module Board.
Import DeltaBuffer.

Inductive SyncStatus := synced | syncing | error.

#[global] Instance SyncStatus_eq_dec : EqDecision SyncStatus.
Proof. solve_decision. Defined.

(** The pending [setTimeout]: when it is due, and the buffer object its
    closure captured in [const pending = pendingChanges.current]. *)
Record Timer := mkTimer { deadline : nat; captured : nat }.

(** One run of the timer callback: when it ran, the [payload] it copied out
    of the buffer, and whether [updateWhiteboardShapes] was called
    ([hasChanges]). *)
Record Flush := mkFlush {
  f_time : nat;
  f_payload : PendingChangeSet;
  f_sent : bool
}.

Record State := mkState {
  readOnly : bool;
  doc : gmap string TLRecord;          (* records held by the tldraw store *)
  loading : bool;
  syncStatus : SyncStatus;
  heap : list PendingChangeSet;        (* buffer objects, by address *)
  pendingChanges : nat;                (* pendingChanges.current *)
  timeoutRef : option Timer;           (* timeoutRef.current *)
  clock : nat;
  flushLog : list Flush;               (* timer callback runs, oldest first *)
  awaiting : list nat                  (* flushes suspended at [await] *)
}.

Definition debounce : nat := 500.

(** State at mount: one empty buffer object, no timer. *)
Definition init (ro : bool) : State :=
  {| readOnly := ro; doc := ∅; loading := true; syncStatus := synced;
     heap := [emptyPending]; pendingChanges := 0; timeoutRef := None;
     clock := 0; flushLog := []; awaiting := [] |}.

(** The object [pendingChanges.current] points to. *)
Definition buffer (s : State) : PendingChangeSet :=
  default emptyPending (heap s !! pendingChanges s).

(** The handler passed to [store.listen]. *)
Definition listener (s : State) (n : Notification) : State :=
  match source n with
  | remote => s
  | user =>
      let pending := pendingChanges s in
      {| readOnly := readOnly s; doc := doc s; loading := loading s;
         syncStatus := syncing;
         heap := alter (λ p, absorb p (changes n)) pending (heap s);
         pendingChanges := pending;
         timeoutRef := Some (mkTimer (clock s + debounce) pending);
         clock := clock s;
         flushLog := flushLog s;
         awaiting := awaiting s |}
  end.

(** The callback given to [setTimeout], run for timer [t] at its deadline:
    copy the captured buffer, install a fresh buffer object, clear
    [timeoutRef], then either call [updateWhiteboardShapes] and suspend or
    set the status to [synced] at once. *)
Definition flush (s : State) (t : Timer) : State :=
  let payload := default emptyPending (heap s !! captured t) in
  let sent := hasChanges payload in
  {| readOnly := readOnly s; doc := doc s; loading := loading s;
     syncStatus := if sent then syncStatus s else synced;
     heap := heap s ++ [emptyPending];
     pendingChanges := length (heap s);
     timeoutRef := None;
     clock := deadline t;
     flushLog := flushLog s ++ [mkFlush (deadline t) payload sent];
     awaiting := if sent then awaiting s ++ [length (flushLog s)]
                 else awaiting s |}.

(** Continuation of flush number [k] after [await]: [setSyncStatus] in the
    [try] body when the push resolved, in the [catch] when it rejected. *)
Definition settle (s : State) (k : nat) (ok : bool) : State :=
  if bool_decide (k ∈ awaiting s) then
    {| readOnly := readOnly s; doc := doc s; loading := loading s;
       syncStatus := if ok then synced else error;
       heap := heap s; pendingChanges := pendingChanges s;
       timeoutRef := timeoutRef s; clock := clock s;
       flushLog := flushLog s;
       awaiting := filter (λ j, j ≠ k) (awaiting s) |}
  else s.

(** [d] milliseconds pass; a timer that falls due runs at its deadline. *)
Definition elapse (s : State) (d : nat) : State :=
  let s' :=
    match timeoutRef s with
    | Some t => if bool_decide (deadline t ≤ clock s + d) then flush s t else s
    | None => s
    end in
  {| readOnly := readOnly s'; doc := doc s'; loading := loading s';
     syncStatus := syncStatus s'; heap := heap s';
     pendingChanges := pendingChanges s'; timeoutRef := timeoutRef s';
     clock := clock s + d;
     flushLog := flushLog s'; awaiting := awaiting s' |}.

(** *** The tldraw store, at its interface *)

(** [store.put(records)]: each record is written under its id. *)
Definition store_put (d : gmap string TLRecord) (records : list TLRecord)
  : gmap string TLRecord :=
  foldl (λ m r, <[id r := r]> m) d records.

(** The diff the store reports for a [put]: a record is [added] when its
    id was absent and [updated] when a different version was present. *)
Fixpoint put_diff (d : gmap string TLRecord) (records : list TLRecord)
  : RecordsDiff :=
  match records with
  | [] => mkDiff [] [] []
  | r :: rs =>
      let rest := put_diff (<[id r := r]> d) rs in
      match d !! id r with
      | None => mkDiff (r :: chg_added rest) (chg_updated rest) []
      | Some prev =>
          if decide (prev = r) then rest
          else mkDiff (chg_added rest) ((prev, Some r) :: chg_updated rest) []
      end
  end.

(** [store.listen(handler, { source: "user", scope: "document" })] while
    the board is not read-only: only user-sourced notifications reach the
    handler. *)
Definition dispatch (s : State) (n : Notification) : State :=
  if readOnly s then s
  else match source n with
       | user => listener s n
       | remote => s
       end.

(** The dictionary [changes.added] built by the [records.forEach] loop. *)
Definition collect (records : list TLRecord) : gmap string TLRecord :=
  foldl (λ m r, <[id r := r]> m) ∅ records.

(** [Object.values] of a dictionary. *)
Definition values (m : gmap string TLRecord) : list TLRecord :=
  (map_to_list m).*2.

(** The store with its records replaced; every other cell is kept. *)
Definition with_doc (s : State) (d : gmap string TLRecord) : State :=
  {| readOnly := readOnly s; doc := d; loading := loading s;
     syncStatus := syncStatus s; heap := heap s;
     pendingChanges := pendingChanges s; timeoutRef := timeoutRef s;
     clock := clock s; flushLog := flushLog s; awaiting := awaiting s |}.

(** [setLoading(false)] *)
Definition stop_loading (s : State) : State :=
  {| readOnly := readOnly s; doc := doc s; loading := false;
     syncStatus := syncStatus s; heap := heap s;
     pendingChanges := pendingChanges s; timeoutRef := timeoutRef s;
     clock := clock s; flushLog := flushLog s; awaiting := awaiting s |}.

(** [store.mergeRemoteChanges(fn)]: the store runs [fn] and reports what it
    changed with source [remote]. *)
Definition mergeRemoteChanges (s : State)
    (fn : gmap string TLRecord → gmap string TLRecord * RecordsDiff)
  : State :=
  let '(d, diff) := fn (doc s) in
  dispatch (with_doc s d) (mkNotification diff remote).

(** The callback given to [subscribeToWhiteboard]. *)
Definition onRecords (s : State) (records : list TLRecord) : State :=
  stop_loading
    (if bool_decide (0 < length records) then
       mergeRemoteChanges s (λ d,
         let batch := values (collect records) in
         (store_put d batch, put_diff d batch))
     else s).

(** The store after a user edit described by [c]. *)
Definition store_apply (d : gmap string TLRecord) (c : RecordsDiff)
  : gmap string TLRecord :=
  foldl (λ m r, delete (id r) m)
    (foldl (λ m ch, match ch.2 with
                    | Some next => <[id next := next]> m
                    | None => m
                    end)
       (store_put d (chg_added c))
       (chg_updated c))
    (chg_removed c).

(** A user edit: the store applies it and notifies with source [user]. *)
Definition userEdit (s : State) (c : RecordsDiff) : State :=
  dispatch (with_doc s (store_apply (doc s) c)) (mkNotification c user).

(** *** Events and runs *)

Inductive Event :=
| Local (c : RecordsDiff)            (* a user edit reported by the store *)
| Inbound (records : list TLRecord)  (* a batch from the subscription *)
| Elapse (d : nat)                   (* time passes *)
| Settle (k : nat) (ok : bool).      (* the push of flush [k] settles *)

Definition step (s : State) (e : Event) : State :=
  match e with
  | Local c => userEdit s c
  | Inbound records => onRecords s records
  | Elapse d => elapse s d
  | Settle k ok => settle s k ok
  end.

Definition run (s : State) (es : list Event) : State := foldl step s es.

(** The calls of [updateWhiteboardShapes] made so far. *)
Definition outbound (s : State) : list Flush :=
  filter (λ f, f_sent f = true) (flushLog s).

(** Every timer closure holds the current buffer object, and that object
    exists. *)
Definition wf (s : State) : Prop :=
  pendingChanges s < length (heap s)
  ∧ (∀ t, timeoutRef s = Some t →
          captured t = pendingChanges s ∧ clock s ≤ deadline t).

(** Every dictionary key is the id of the record stored under it. *)
Definition keyed (m : gmap string TLRecord) : Prop :=
  ∀ i r, m !! i = Some r → id r = i.

(** The store reports a record as added only when it did not hold its id. *)
Definition store_consistent (d : gmap string TLRecord) (c : RecordsDiff)
  : Prop :=
  Forall (λ r, d !! id r = None) (chg_added c).

Definition admissible (s : State) (e : Event) : Prop :=
  match e with
  | Local c => store_consistent (doc s) c
  | _ => True
  end.

(** A run in which every user edit is one the store can report. *)
Fixpoint admissible_run (s : State) (es : list Event) : Prop :=
  match es with
  | [] => True
  | e :: es' => admissible s e ∧ admissible_run (step s e) es'
  end.

(** The buffer is exclusive and every pending update is of a record the
    store holds. *)
Definition tracked (d : gmap string TLRecord) (p : PendingChangeSet) : Prop :=
  exclusive p ∧ ∀ i, is_Some (updated p !! i) → is_Some (d !! i).

(** A board with one pending edit: record [1] added at time 0. *)
Definition one_edit : State :=
  run (init false) [Local (add (mkRecord "1" "A"))].

End Board.

(** ** Live cursors: presence publisher and subscriber *)

Module Presence.

(** A JavaScript number: not-a-number, an infinity, or a finite value.
    Every finite double is a rational. *)
Inductive JSNumber :=
| NaN
| Infinity (negative : bool)
| Finite (q : Q).

Definition Number_isNaN (v : JSNumber) : bool :=
  match v with NaN => true | _ => false end.

Definition Number_isFinite (v : JSNumber) : bool :=
  match v with Finite _ => true | _ => false end.

(** [Math.round]: the nearest integer, a tie going towards +∞; NaN and the
    infinities are returned as they are. *)
Definition Math_round (v : JSNumber) : JSNumber :=
  match v with
  | Finite q => Finite (inject_Z (Qfloor (q + (1 # 2))%Q))
  | _ => v
  end.

(** What a timestamp method returns: integer milliseconds, or NaN (an
    invalid [Date]). *)
Inductive TimeValue := TimeNaN | Millis (ms : Z).

(** A property read off [u.lastActive]: absent (or otherwise falsy), a
    function, or some truthy value that is not a function. *)
Inductive Member :=
| Missing
| Method (result : TimeValue)
| NotCallable.

(** The value found in [u.lastActive]. *)
Inductive LastActive :=
| Nullish                              (* undefined or null *)
| RawNumber (n : Z)                    (* a primitive; it has neither method *)
| Object (toMillis getTime : Member).

Record PresenceRecord := mkPresence {
  userId : string;
  userName : string;
  color : string;
  x : JSNumber;
  y : JSNumber;
  lastActive : LastActive
}.

Record User := mkUser { uid : string; email : option string }.

(** The filter callback either returns or throws a [TypeError]. *)
Inductive Outcome (A : Type) :=
| Returned (a : A)
| TypeError.
Arguments Returned {A} a.
Arguments TypeError {A}.

(** Computations that read [Date.now()]: the state is the number of reads
    made so far, and [now k] is what the [k]-th read returns. *)
Definition Clocked (A : Type) : Type := (nat → Z) → nat → Outcome (A * nat).

Definition ret {A} (a : A) : Clocked A := λ _ k, Returned (a, k).

Definition bind {A B} (m : Clocked A) (f : A → Clocked B) : Clocked B :=
  λ now k, match m now k with
           | Returned (a, k') => f a now k'
           | TypeError => TypeError
           end.

Definition throw {A} : Clocked A := λ _ _, TypeError.

Definition Date_now : Clocked Z := λ now k, Returned (now k, S k).

Notation "'let*' x ':=' m 'in' f" := (bind m (λ x, f))
  (at level 10, x name, m at level 100, f at level 200).

(** [o?.m ? o.m() : ...] on one member: [Some] of the call's outcome when
    the member is truthy, [None] when the next alternative is taken. *)
Definition try_method (m : Member) : option (Clocked TimeValue) :=
  match m with
  | Missing => None
  | Method r => Some (ret r)
  | NotCallable => Some throw
  end.

(** The [const lastActive = ...] expression. *)
Definition resolveLastActive (la : LastActive) : Clocked TimeValue :=
  match la with
  | Nullish | RawNumber _ => let* n := Date_now in ret (Millis n)
  | Object toMillis getTime =>
      match try_method toMillis with
      | Some call => call
      | None =>
          match try_method getTime with
          | Some call => call
          | None => let* n := Date_now in ret (Millis n)
          end
      end
  end.

Definition STALE : Z := 60000.

(** [Date.now() - lastActive < 60000]; a comparison with NaN is false. *)
Definition fresh (now : Z) (la : TimeValue) : bool :=
  match la with
  | TimeNaN => false
  | Millis ms => bool_decide (now - ms < STALE)%Z
  end.

(** The predicate given to [users.filter]. *)
Definition isActive (viewer : User) (u : PresenceRecord) : Clocked bool :=
  if bool_decide (userId u = uid viewer) then ret false
  else
    let* la := resolveLastActive (lastActive u) in
    let* n := Date_now in
    ret (fresh n la).

(** [users.filter(pred)] *)
Fixpoint filterM (pred : PresenceRecord → Clocked bool)
    (users : list PresenceRecord) : Clocked (list PresenceRecord) :=
  match users with
  | [] => ret []
  | u :: rest =>
      let* keep := pred u in
      let* tail := filterM pred rest in
      ret (if keep then u :: tail else tail)
  end.

(** The callback given to [subscribeToPresence]; the result is the new
    value of the [otherUsers] state. *)
Definition onPresence (user : option User)
    (otherUsers users : list PresenceRecord)
  : Clocked (list PresenceRecord) :=
  match user with
  | None => ret otherUsers
  | Some viewer => filterM (isActive viewer) users
  end.

(** A clock that stands still for the duration of one callback. *)
Definition frozen (now : Z) : nat → Z := λ _, now.

(** The timestamp of a record as the specification words it (§4.6): an
    epoch-millis number is taken at its value, a timestamp object gives what
    its millis conversion returns, and when neither form is present the
    timestamp is "now". *)
Definition spec_millis (now : Z) (la : LastActive) : TimeValue :=
  match la with
  | RawNumber n => Millis n
  | Object (Method r) _ => r
  | Object _ (Method r) => r
  | _ => Millis now
  end.

(** The displayed set as the specification words it: records of other users
    whose age, [now] minus that timestamp, is below the threshold. *)
Definition spec_displayed (viewer : User) (now : Z) (u : PresenceRecord)
  : bool :=
  negb (bool_decide (userId u = uid viewer))
  && fresh now (spec_millis now (lastActive u)).

Definition readable (la : LastActive) : Prop :=
  match la with
  | Object NotCallable _ | Object Missing NotCallable => False
  | _ => True
  end.

(** A [lastActive] that is a timestamp object, with [toMillis] or [getTime]
    as a method or with neither, or that is absent: not a plain number and
    no property that is truthy without being a function. *)
Definition stamped (la : LastActive) : Prop :=
  match la with
  | RawNumber _ => False
  | _ => readable la
  end.

(** *** Publisher *)

Record Point := mkPoint { px : JSNumber; py : JSNumber }.

(** [s.split('@')[0]] *)
Fixpoint local_part (s : string) : string :=
  match s with
  | EmptyString => EmptyString
  | String c rest =>
      if Ascii.eqb c "@"%char then EmptyString else String c (local_part rest)
  end.

(** [a || b] on strings that may be undefined: the empty string is falsy. *)
Definition or_else (a : option string) (b : string) : string :=
  match a with
  | Some s => if String.eqb s "" then b else s
  | None => b
  end.

(** [userProfile?.name || user.email?.split('@')[0] || "Anon"] *)
Definition displayName (profileName : option string) (user : User) : string :=
  or_else profileName (or_else (local_part <$> email user) "Anon").

Definition THROTTLE : Z := 100.

(** The object literal passed to [updatePresence]. *)
Record PresenceUpdate := mkUpdate {
  pu_userId : string;
  pu_userName : string;
  pu_color : string;
  pu_x : JSNumber;
  pu_y : JSNumber
}.

(** One run of the [setInterval] callback at time [now]: the argument of
    [updatePresence], if it is called, and the new [lastBroadcastRef]. *)
Definition broadcast (now lastBroadcast : Z) (user : User)
    (profileName : option string) (pt : Point)
  : option PresenceUpdate * Z :=
  if bool_decide (now - lastBroadcast < THROTTLE)%Z then (None, lastBroadcast)
  else if negb (Number_isNaN (px pt)) && negb (Number_isNaN (py pt)) then
    (Some {| pu_userId := uid user;
             pu_userName := displayName profileName user;
             pu_color := "#3b82f6";
             pu_x := Math_round (px pt);
             pu_y := Math_round (py pt) |}, now)
  else (None, lastBroadcast).

End Presence.

(** ** Life cycle of the listener effect, and measures on runs *)

Module Lifecycle.
Import DeltaBuffer Board.

(** The function the listener effect returns: [cleanup()] detaches the
    handler and [clearTimeout] cancels the pending timer.  The two refs
    outlive the effect, so the buffer object stays where it is; a cancelled
    timer is no pending timer. *)
Definition cleanup (s : State) : State :=
  {| readOnly := readOnly s; doc := doc s; loading := loading s;
     syncStatus := syncStatus s; heap := heap s;
     pendingChanges := pendingChanges s; timeoutRef := None;
     clock := clock s; flushLog := flushLog s; awaiting := awaiting s |}.

Definition is_inbound (e : Event) : bool :=
  match e with Inbound _ => true | _ => false end.

(** A run without batches from the subscription. *)
Definition local_only (es : list Event) : Prop :=
  Forall (λ e, is_inbound e = false) es.

(** Successive times are at least [gap] apart. *)
Fixpoint spaced (gap : nat) (ts : list nat) : Prop :=
  match ts with
  | a :: rest =>
      match rest with
      | b :: _ => a + gap ≤ b ∧ spaced gap rest
      | [] => True
      end
  | [] => True
  end.

(** The buffer holds, for each id it adds or updates, the record the store
    holds now, and the store holds no id the buffer removes. *)
Definition in_step (d : gmap string TLRecord) (p : PendingChangeSet) : Prop :=
  (∀ i r, added p !! i = Some r → d !! i = Some r)
  ∧ (∀ i r, updated p !! i = Some r → d !! i = Some r)
  ∧ (∀ i, is_Some (removed p !! i) → d !! i = None).

(** Each of the three dictionaries stores a record under its own id. *)
Definition keyed_pending (p : PendingChangeSet) : Prop :=
  keyed (added p) ∧ keyed (updated p) ∧ keyed (removed p).

(** The ids a notification makes the listener look at. *)
Definition touched (c : RecordsDiff) : list string :=
  (id <$> chg_added c)
  ++ omap (λ ch : TLRecord * option TLRecord, id <$> ch.2) (chg_updated c)
  ++ (id <$> chg_removed c).

(** The times at which the timer callback ran. *)
Definition flushTimes (s : State) : list nat := f_time <$> flushLog s.

(** Flush times lie in the past, and a pending timer is due no earlier than
    500 ms after each of them. *)
Definition paced (s : State) : Prop :=
  spaced 500 (flushTimes s)
  ∧ Forall (λ a, a ≤ clock s) (flushTimes s)
  ∧ ∀ t, timeoutRef s = Some t →
         Forall (λ a, a + 500 ≤ deadline t) (flushTimes s).

End Lifecycle.

(** ** The sampling interval of the presence publisher *)

Module Cursors.
Import Presence.

(** The [setInterval] callback run at each of the sampled moments, with the
    pointer position read at that moment: the calls of [updatePresence] it
    makes, each with the time of the tick that made it. *)
Fixpoint broadcastLoop (lastBroadcast : Z) (user : User)
    (profileName : option string) (ticks : list (Z * Point))
  : list (Z * PresenceUpdate) :=
  match ticks with
  | [] => []
  | (now, pt) :: rest =>
      match broadcast now lastBroadcast user profileName pt with
      | (Some upd, last') =>
          (now, upd) :: broadcastLoop last' user profileName rest
      | (None, last') => broadcastLoop last' user profileName rest
      end
  end.

(** Successive publish times are at least [gap] apart, the first one at
    least [gap] after [from]. *)
Fixpoint throttled (gap from : Z) (ts : list Z) : Prop :=
  match ts with
  | [] => True
  | t :: rest => (from + gap <= t)%Z ∧ throttled gap t rest
  end.

(** The characters of a string. *)
Fixpoint chars (s : string) : list ascii :=
  match s with
  | EmptyString => []
  | String c rest => c :: chars rest
  end.

End Cursors.

(** ** The board before debouncing: one push per notification *)

Module BoardV1.
Import Board.

(** The object passed to [updateWhiteboardShapes]: [changes.added] and
    [changes.removed] as the store gave them, and the [updatedRecords]
    dictionary. *)
Record Delta := mkDelta {
  d_added : list TLRecord;
  d_updated : gmap string TLRecord;
  d_removed : list TLRecord
}.

(** The [updatedRecords] dictionary: the [next] of every [[prev, next]]
    pair that has one, under its id. *)
Definition updatedRecords (chs : list (TLRecord * option TLRecord))
  : gmap string TLRecord :=
  foldl (λ m ch, match ch.2 with
                 | Some next => <[id next := next]> m
                 | None => m
                 end) ∅ chs.

Definition toDelta (c : RecordsDiff) : Delta :=
  mkDelta (chg_added c) (updatedRecords (chg_updated c)) (chg_removed c).

Record State := mkState {
  readOnly : bool;
  syncStatus : SyncStatus;
  calls : list Delta;          (* calls of [updateWhiteboardShapes] *)
  awaiting : list nat          (* calls not settled yet *)
}.

Definition init (ro : bool) : State := mkState ro synced [] [].

(** The handler passed to [store.listen]; it reads [changes] only. *)
Definition listener (s : State) (n : Notification) : State :=
  {| readOnly := readOnly s;
     syncStatus := syncing;
     calls := calls s ++ [toDelta (changes n)];
     awaiting := awaiting s ++ [length (calls s)] |}.

(** [store.listen(handler, { source: "user", scope: "document" })], unless
    the board is read-only. *)
Definition dispatch (s : State) (n : Notification) : State :=
  if readOnly s then s
  else match source n with
       | user => listener s n
       | remote => s
       end.

(** The continuation of call [k] after [await]. *)
Definition settle (s : State) (k : nat) (ok : bool) : State :=
  if bool_decide (k ∈ awaiting s) then
    {| readOnly := readOnly s;
       syncStatus := if ok then synced else error;
       calls := calls s;
       awaiting := filter (λ j, j ≠ k) (awaiting s) |}
  else s.

Inductive Event :=
| Notify (n : Notification)
| Settle (k : nat) (ok : bool).

Definition step (s : State) (e : Event) : State :=
  match e with
  | Notify n => dispatch s n
  | Settle k ok => settle s k ok
  end.

Definition run (s : State) (es : list Event) : State := foldl step s es.

(** The user-sourced notifications of a run, in order. *)
Fixpoint userChanges (es : list Event) : list RecordsDiff :=
  match es with
  | [] => []
  | Notify n :: rest =>
      match source n with
      | user => changes n :: userChanges rest
      | remote => userChanges rest
      end
  | Settle _ _ :: rest => userChanges rest
  end.

End BoardV1.

(** ** The error boundary around the editing surface *)

Module ErrorBoundary.

Record Error := mkError { message : string }.

Record Props := mkProps {
  children : string;            (* the wrapped subtree *)
  fallback : option string      (* [props.fallback], when given *)
}.

Record State := mkState { hasError : bool; error : option Error }.

(** What [render] returns. *)
Inductive View :=
| Children (node : string)
| Fallback (node : string)
| Panel (text : string).

Definition initial : State := mkState false None.

Definition getDerivedStateFromError (e : Error) : State :=
  mkState true (Some e).

(** The button's [setState({ hasError: false })]: the other field stays. *)
Definition tryAgain (st : State) : State := mkState false (error st).

(** [this.state.error?.message || "An unexpected error occurred."] *)
Definition panelText (st : State) : string :=
  match error st with
  | Some e => if String.eqb (message e) "" then "An unexpected error occurred."
              else message e
  | None => "An unexpected error occurred."
  end.

Definition render (props : Props) (st : State) : View :=
  if hasError st then
    match fallback props with
    | Some node => if String.eqb node "" then Panel (panelText st)
                   else Fallback node
    | None => Panel (panelText st)
    end
  else Children (children props).

Inductive Event :=
| Caught (e : Error)      (* a descendant threw while rendering *)
| Retry.                  (* the button was clicked *)

Definition step (st : State) (ev : Event) : State :=
  match ev with
  | Caught e => getDerivedStateFromError e
  | Retry => tryAgain st
  end.

Definition run (st : State) (evs : list Event) : State := foldl step st evs.

End ErrorBoundary.

(** * Properties of the pending change-set *)

Section FoldRules.
Import DeltaBuffer.
Implicit Types (p : PendingChangeSet) (r : TLRecord) (i : string).

Lemma absorb_add p r : absorb p (add r) = handleAdded p r.
Proof. reflexivity. Qed.

Lemma absorb_update p prev next :
  absorb p (update prev next) = handleUpdated p (prev, Some next).
Proof. reflexivity. Qed.

Lemma absorb_remove p r : absorb p (remove r) = handleRemoved p r.
Proof. reflexivity. Qed.

(** Absorbing an empty notification changes nothing. *)
Lemma absorb_nothing p : absorb p (mkDiff [] [] []) = p.
Proof. reflexivity. Qed.

Lemma none_or_none (m1 m2 : gmap string TLRecord) :
  dom m1 ## dom m2 ↔ ∀ i, m1 !! i = None ∨ m2 !! i = None.
Proof.
  split.
  - intros Hd i. destruct (m1 !! i) eqn:E1; [|by left].
    destruct (m2 !! i) eqn:E2; [|by right].
    exfalso. apply (Hd i); apply elem_of_dom; eauto.
  - intros H i [v1 E1]%elem_of_dom [v2 E2]%elem_of_dom.
    destruct (H i); congruence.
Qed.

Lemma exclusive_lookup p : exclusive p ↔ ∀ i, exclusive_at p i.
Proof.
  unfold exclusive, exclusive_at. rewrite !none_or_none. firstorder.
Qed.

Lemma exclusive_empty : exclusive emptyPending.
Proof. apply exclusive_lookup. intros i. by repeat split; left. Qed.

Ltac by_id i j :=
  destruct (decide (i = j)) as [->|];
  simplify_map_eq; intuition (auto; congruence).

Lemma handleAdded_exclusive p r :
  updated p !! id r = None → exclusive p → exclusive (handleAdded p r).
Proof.
  rewrite !exclusive_lookup. intros Hu H i. specialize (H i).
  unfold exclusive_at, handleAdded in *; simpl. by_id i (id r).
Qed.

Lemma handleUpdated_exclusive p ch : exclusive p → exclusive (handleUpdated p ch).
Proof.
  rewrite !exclusive_lookup. intros H i.
  unfold handleUpdated. destruct ch as [prev [next|]]; simpl; [|done].
  pose proof (H i) as Hi. pose proof (H (id next)) as Hn.
  unfold exclusive_at in *.
  destruct (added p !! id next) eqn:E; simpl; by_id i (id next).
Qed.

Lemma handleRemoved_exclusive p r : exclusive p → exclusive (handleRemoved p r).
Proof.
  rewrite !exclusive_lookup. intros H i.
  pose proof (H i) as Hi. pose proof (H (id r)) as Hn.
  unfold handleRemoved, exclusive_at in *.
  destruct (added p !! id r) eqn:E; simpl; by_id i (id r).
Qed.

Lemma foldl_handleAdded_updated p rs :
  updated (foldl handleAdded p rs) = updated p.
Proof. revert p. induction rs as [|r rs IH]; intros p; [done|]. simpl. by rewrite IH. Qed.

Lemma absorb_exclusive p c :
  fresh_adds p c → exclusive p → exclusive (absorb p c).
Proof.
  unfold fresh_adds, absorb. destruct c as [ad up rm]; simpl.
  intros Hf Hp.
  assert (exclusive (foldl handleAdded p ad)) as H1.
  { revert p Hf Hp. induction ad as [|r ad IH]; intros p Hf Hp; [done|].
    inversion Hf as [|? ? Hr Hrest]; subst. simpl. apply IH.
    - eapply Forall_impl; [exact Hrest|]. by intros r'.
    - by apply handleAdded_exclusive. }
  assert (exclusive (foldl handleUpdated (foldl handleAdded p ad) up)) as H2.
  { clear Hf Hp. revert H1. generalize (foldl handleAdded p ad).
    induction up as [|ch up IH]; intros q Hq; [done|].
    simpl. apply IH. by apply handleUpdated_exclusive. }
  revert H2. generalize (foldl handleUpdated (foldl handleAdded p ad) up).
  clear. induction rm as [|r rm IH]; intros q Hq; [done|].
  simpl. apply IH. by apply handleRemoved_exclusive.
Qed.

(** C2 — fold minimality.  In a window whose buffer holds no pending update
    of the id, absorbing an add of the id and then its removal leaves the id
    in none of the three dictionaries, and absorbing an add with payload A
    and then an update to payload B leaves exactly [added[id] = B]. *)
Theorem fold_minimality p (ra rb gone prev : TLRecord) :
  updated p !! id ra = None →
  id gone = id ra →
  id rb = id ra →
  (let q := absorb (absorb p (add ra)) (remove gone) in
   added q !! id ra = None ∧ updated q !! id ra = None
   ∧ removed q !! id ra = None)
  ∧ (let q := absorb (absorb p (add ra)) (update prev rb) in
     added q !! id ra = Some rb ∧ updated q !! id ra = None
     ∧ removed q !! id ra = None).
Proof.
  intros Hu Hg Hb. rewrite !absorb_add, absorb_remove, absorb_update.
  unfold handleRemoved, handleUpdated, handleAdded; simpl.
  rewrite Hg, Hb. simplify_map_eq. done.
Qed.

Lemma fold_minimality_witness :
  let ra := mkRecord "1" "A" in
  let rb := mkRecord "1" "B" in
  absorb (absorb emptyPending (add ra)) (remove ra) = emptyPending
  ∧ added (absorb (absorb emptyPending (add ra)) (update ra rb)) !! "1"
    = Some rb.
Proof.
  intros ra rb.
  destruct (fold_minimality emptyPending ra rb ra ra) as [_ (Ha & _ & _)];
    [reflexivity | reflexivity | reflexivity |].
  split; [vm_compute; reflexivity | exact Ha].
Defined.

(** From an empty buffer the two scenarios give the empty change-set and
    the single entry [added[id] = B]. *)
Lemma add_then_remove_from_empty (ra rb gone prev : TLRecord) :
  id gone = id ra → id rb = id ra →
  absorb (absorb emptyPending (add ra)) (remove gone) = emptyPending
  ∧ absorb (absorb emptyPending (add ra)) (update prev rb)
    = mkPending {[id ra := rb]} ∅ ∅.
Proof.
  intros Hg Hb. rewrite !absorb_add, absorb_remove, absorb_update.
  unfold handleRemoved, handleUpdated, handleAdded, emptyPending; simpl.
  rewrite Hg, Hb. simplify_map_eq. split; f_equal.
  - by rewrite delete_insert_eq, delete_empty.
  - by rewrite insert_insert_eq.
Qed.

(** The invariant fails for an add that arrives while an update of the same
    id is pending. *)
Lemma exclusive_any_history_fails :
  ¬ (∀ cs : list RecordsDiff, exclusive (foldl absorb emptyPending cs)).
Proof.
  intros H.
  specialize (H [update (mkRecord "1" "A") (mkRecord "1" "B");
                 add (mkRecord "1" "C")]).
  destruct H as [H _]. apply (H "1"); apply elem_of_dom; vm_compute; eauto.
Qed.

(** C5 (amended) — starting from the empty change-set, after any sequence
    of absorbed notifications none of which adds an id whose update is
    pending at that moment, each id is in at most one of [added], [updated]
    and [removed]. *)
Theorem exclusive_fresh_history (cs : list RecordsDiff) :
  fresh_history emptyPending cs →
  exclusive (foldl absorb emptyPending cs).
Proof.
  generalize exclusive_empty. generalize emptyPending.
  induction cs as [|c cs IH]; intros p Hp Hf; [done|].
  destruct Hf as [Hc Hrest]. simpl. apply IH; [|done].
  by apply absorb_exclusive.
Qed.

Lemma exclusive_fresh_history_witness :
  let r := mkRecord "1" "A" in
  exclusive (foldl absorb emptyPending
               [update r (mkRecord "1" "B"); remove r; add r]).
Proof.
  intros r. apply exclusive_fresh_history.
  simpl. repeat split; repeat constructor.
Defined.

End FoldRules.

(** * Properties of the inbound path *)

Section Inbound.
Import DeltaBuffer Board.
Implicit Types (s : State) (d m : gmap string TLRecord) (r : TLRecord).

Lemma store_put_snoc d rs r :
  store_put d (rs ++ [r]) = <[id r := r]> (store_put d rs).
Proof. unfold store_put. by rewrite foldl_app. Qed.

Lemma store_put_other d rs i :
  i ∉ id <$> rs → store_put d rs !! i = d !! i.
Proof.
  revert d. induction rs as [|r rs IH]; intros d Hi; [done|].
  simpl in *. apply not_elem_of_cons in Hi as [Hne Hi].
  rewrite IH by done. by rewrite lookup_insert_ne.
Qed.

Lemma store_put_member d rs r :
  NoDup (id <$> rs) → r ∈ rs → store_put d rs !! id r = Some r.
Proof.
  revert d. induction rs as [|r0 rs IH]; intros d Hnd Hr.
  - by apply elem_of_nil in Hr.
  - simpl in *. apply NoDup_cons in Hnd as [Hfresh Hnd].
    apply elem_of_cons in Hr as [->|Hr].
    + rewrite store_put_other by done. by rewrite lookup_insert_eq.
    + by apply IH.
Qed.

Lemma store_put_union d rs : store_put d rs = collect rs ∪ d.
Proof.
  unfold collect, store_put.
  rewrite <- (left_id_L ∅ (∪) d) at 1.
  generalize (∅ : gmap string TLRecord).
  induction rs as [|r rs IH]; intros m; [done|].
  simpl. by rewrite insert_union_l, IH.
Qed.

Lemma collect_keyed rs : keyed (collect rs).
Proof.
  unfold collect.
  assert (keyed (∅ : gmap string TLRecord)) as H by (intros i r; by rewrite lookup_empty).
  revert H. generalize (∅ : gmap string TLRecord).
  induction rs as [|r rs IH]; intros m Hm; [done|].
  simpl. apply IH. intros i r'.
  destruct (decide (id r = i)) as [<-|Hne].
  - rewrite lookup_insert_eq. by intros [= <-].
  - rewrite lookup_insert_ne by done. apply Hm.
Qed.

Lemma values_ids m : keyed m → id <$> values m = (map_to_list m).*1.
Proof.
  intros Hk. unfold values. rewrite <- list_fmap_compose.
  apply list_fmap_ext. intros _ [i r] Hir%list_elem_of_lookup_2.
  apply elem_of_map_to_list in Hir. simpl. by apply Hk.
Qed.

(** Writing the values of a keyed dictionary is a left-biased union. *)
Lemma store_put_values d m : keyed m → store_put d (values m) = m ∪ d.
Proof.
  intros Hk. apply map_eq. intros i.
  destruct (m !! i) as [r|] eqn:E.
  - rewrite (lookup_union_Some_l _ _ _ r) by done.
    rewrite <- (Hk _ _ E). apply store_put_member.
    + rewrite values_ids by done. apply NoDup_fst_map_to_list.
    + unfold values. apply list_elem_of_fmap. exists (i, r).
      split; [done|]. by apply elem_of_map_to_list.
  - rewrite lookup_union_r by done. apply store_put_other.
    rewrite values_ids by done. intros Hin.
    apply list_elem_of_fmap in Hin as ([j r] & -> & Hjr).
    apply elem_of_map_to_list in Hjr. simpl in E. congruence.
Qed.

(** The records of the store after a batch has been handled. *)
Lemma doc_onRecords s records :
  doc (onRecords s records) = store_put (doc s) records.
Proof.
  unfold onRecords, mergeRemoteChanges, dispatch.
  destruct records as [|r rs]; [done|].
  rewrite bool_decide_eq_true_2 by (simpl; lia).
  rewrite store_put_values by apply collect_keyed.
  rewrite <- store_put_union. simpl. by destruct (readOnly s).
Qed.

Lemma store_put_last d rs r :
  r ∈ rs → ∃ r', r' ∈ rs ∧ id r' = id r ∧ store_put d rs !! id r = Some r'.
Proof.
  induction rs as [|r0 rs IH] using rev_ind; intros Hr.
  - by apply elem_of_nil in Hr.
  - rewrite store_put_snoc.
    destruct (decide (id r0 = id r)) as [Heq|Hne].
    + exists r0. rewrite <- Heq, lookup_insert_eq.
      split_and!; [apply elem_of_app; right; by apply list_elem_of_singleton | done..].
    + apply elem_of_app in Hr as [Hr|Hr%list_elem_of_singleton]; [|congruence].
      destruct (IH Hr) as (r' & Hin & Hid & Hl). exists r'.
      rewrite lookup_insert_ne by done.
      split_and!; [apply elem_of_app; by left | done..].
Qed.

Lemma store_put_keeps d rs i : is_Some (d !! i) → is_Some (store_put d rs !! i).
Proof.
  revert d. induction rs as [|r rs IH]; intros d Hi; [done|].
  simpl. apply IH. destruct (decide (id r = i)) as [<-|].
  - rewrite lookup_insert_eq. eauto.
  - by rewrite lookup_insert_ne.
Qed.

(** Handling a batch touches the store's records and [loading] only. *)
Lemma onRecords_frame s records :
  let s' := onRecords s records in
  heap s' = heap s ∧ pendingChanges s' = pendingChanges s
  ∧ timeoutRef s' = timeoutRef s ∧ flushLog s' = flushLog s
  ∧ awaiting s' = awaiting s ∧ syncStatus s' = syncStatus s
  ∧ clock s' = clock s.
Proof.
  unfold onRecords, mergeRemoteChanges, dispatch.
  destruct (bool_decide (0 < length records)); simpl; [|done].
  by destruct (readOnly s).
Qed.

(** C1 — loop guard.  The listener returns the state untouched for every
    notification whose source is remote, and a run of inbound batches,
    from any state, leaves the buffer objects, the buffer pointer, the
    timer, the flush log, the suspended pushes, the status and the clock
    as they were: nothing is absorbed, no timer is set or reset, and no
    flush or push happens. *)
Theorem remote_changes_never_reach_outbound :
  (∀ s (c : RecordsDiff), listener s (mkNotification c remote) = s)
  ∧ (∀ s (batches : list (list TLRecord)),
       let s' := run s (Inbound <$> batches) in
       heap s' = heap s ∧ pendingChanges s' = pendingChanges s
       ∧ timeoutRef s' = timeoutRef s ∧ flushLog s' = flushLog s
       ∧ outbound s' = outbound s ∧ awaiting s' = awaiting s
       ∧ syncStatus s' = syncStatus s ∧ clock s' = clock s).
Proof.
  split; [done|].
  intros s batches. revert s.
  induction batches as [|b bs IH]; intros s; [done|].
  cbn [fmap list_fmap run foldl step]. fold (run (onRecords s b) (Inbound <$> bs)).
  destruct (IH (onRecords s b)) as (E1 & E2 & E3 & E4 & E5 & E6 & E7 & E8).
  destruct (onRecords_frame s b) as (F1 & F2 & F3 & F4 & F5 & F6 & F7).
  cbn zeta. unfold outbound in *.
  rewrite E1, E2, E3, E4, E6, E7, E8, F1, F2, F3, F4, F5, F6, F7. done.
Qed.

(** C10 — the inbound path only upserts.  After a batch the store holds
    what writing every record of the batch, in order, gives; each record of
    the batch is present under its id (the last one of that id when the
    batch repeats an id); ids outside the batch keep their record; and no
    id that was present has gone. *)
Theorem inbound_only_upserts s (records : list TLRecord) :
  let s' := onRecords s records in
  doc s' = store_put (doc s) records
  ∧ (∀ r, r ∈ records →
          ∃ r', r' ∈ records ∧ id r' = id r ∧ doc s' !! id r = Some r')
  ∧ (∀ i, i ∉ id <$> records → doc s' !! i = doc s !! i)
  ∧ (∀ i, is_Some (doc s !! i) → is_Some (doc s' !! i)).
Proof.
  cbn zeta. rewrite doc_onRecords. split_and!.
  - done.
  - intros r Hr. by apply store_put_last.
  - intros i Hi. by apply store_put_other.
  - intros i Hi. by apply store_put_keeps.
Qed.

Lemma inbound_only_upserts_witness :
  let old := mkRecord "shape:a" "v1" in
  let new := mkRecord "shape:b" "v1" in
  let s := with_doc (init false) {[ "shape:a" := old ]} in
  doc (onRecords s [new]) !! "shape:a" = Some old
  ∧ doc (onRecords s [new]) !! "shape:b" = Some new.
Proof.
  intros old new s.
  destruct (inbound_only_upserts s [new]) as (_ & Hin & Hout & _).
  split.
  - rewrite (Hout "shape:a"); [reflexivity|].
    simpl. rewrite list_elem_of_singleton. discriminate.
  - destruct (Hin new) as (r' & Hr' & _ & Hl);
      [by apply list_elem_of_singleton|].
    apply list_elem_of_singleton in Hr'. by subst r'.
Defined.

End Inbound.

(** * Properties of the debounced flush *)

Section Debounce.
Import DeltaBuffer Board.
Implicit Types (s : State) (c : RecordsDiff) (t : Timer).

Lemma wf_init ro : wf (init ro).
Proof. split; [simpl; lia | intros t [=]]. Qed.

Lemma wf_listener s n : wf s → wf (listener s n).
Proof.
  intros [Hb Ht]. unfold listener. destruct (source n); [|done].
  split; simpl.
  - by rewrite length_alter.
  - intros t [= <-]. simpl. split; [done | lia].
Qed.

Lemma wf_flush s t : wf (flush s t).
Proof. split; simpl; [rewrite length_app; simpl; lia | intros ? [=]]. Qed.

Lemma wf_elapse s d : wf s → wf (elapse s d).
Proof.
  intros [Hb Ht]. unfold elapse.
  destruct (timeoutRef s) as [t|] eqn:E.
  - case_bool_decide as Hd.
    + split; simpl; [rewrite length_app; simpl; lia | intros ? [=]].
    + split; simpl; [done|]. rewrite E. intros ? [= <-].
      destruct (Ht t eq_refl). split; [done | lia].
  - split; simpl; [done|]. rewrite E. intros ? [=].
Qed.

Lemma wf_settle s k ok : wf s → wf (settle s k ok).
Proof. intros H. unfold settle. by case_bool_decide. Qed.

Lemma wf_step s e : wf s → wf (step s e).
Proof.
  intros H. destruct e as [c|records|d|k ok]; simpl.
  - unfold userEdit, dispatch. simpl. destruct (readOnly s); [done|].
    by apply wf_listener.
  - destruct H as [Hb Ht].
    destruct (onRecords_frame s records) as (F1 & F2 & F3 & _ & _ & _ & F7).
    split; [by rewrite F1, F2 | by rewrite F2, F3, F7].
  - by apply wf_elapse.
  - by apply wf_settle.
Qed.

(** The invariant holds in every state the board can reach. *)
Lemma wf_run s es : wf s → wf (run s es).
Proof.
  revert s. induction es as [|e es IH]; intros s H; [done|].
  simpl. apply IH. by apply wf_step.
Qed.

(** A user notification is folded into the current buffer object. *)
Lemma buffer_listener s c :
  wf s → buffer (listener s (mkNotification c user)) = absorb (buffer s) c.
Proof.
  intros [Hb _]. unfold buffer, listener; simpl.
  apply lookup_lt_is_Some in Hb as [p Hp].
  by rewrite list_lookup_alter_eq, Hp.
Qed.

(** A user edit of a writable board runs the listener. *)
Lemma userEdit_listener s c :
  readOnly s = false →
  ∃ d, userEdit s c = listener (with_doc s d) (mkNotification c user).
Proof.
  intros Hro. exists (store_apply (doc s) c).
  unfold userEdit, dispatch. simpl. by rewrite Hro.
Qed.

(** The timer callback copies the buffer its closure holds and leaves a
    fresh empty buffer object in [pendingChanges.current]. *)
Lemma flush_snapshot s t :
  wf s → timeoutRef s = Some t →
  flushLog (flush s t)
  = flushLog s ++ [mkFlush (deadline t) (buffer s) (hasChanges (buffer s))]
  ∧ buffer (flush s t) = emptyPending
  ∧ timeoutRef (flush s t) = None
  ∧ heap (flush s t) = heap s ++ [emptyPending].
Proof.
  intros [Hb Ht] E. destruct (Ht t E) as [Hc _].
  unfold flush, buffer; simpl. rewrite Hc. split_and!; try done.
  by rewrite lookup_app_r, Nat.sub_diag.
Qed.

(** Time passing fires the timer exactly when its deadline is reached. *)
Lemma elapse_fires s t d :
  timeoutRef s = Some t → deadline t ≤ clock s + d →
  flushLog (elapse s d) = flushLog (flush s t)
  ∧ heap (elapse s d) = heap (flush s t)
  ∧ pendingChanges (elapse s d) = pendingChanges (flush s t)
  ∧ timeoutRef (elapse s d) = None
  ∧ awaiting (elapse s d) = awaiting (flush s t)
  ∧ syncStatus (elapse s d) = syncStatus (flush s t)
  ∧ readOnly (elapse s d) = readOnly s
  ∧ clock (elapse s d) = clock s + d.
Proof.
  intros E Hd. unfold elapse. rewrite E, bool_decide_eq_true_2 by done.
  done.
Qed.

Lemma elapse_waits s t d :
  timeoutRef s = Some t → clock s + d < deadline t →
  flushLog (elapse s d) = flushLog s
  ∧ heap (elapse s d) = heap s
  ∧ pendingChanges (elapse s d) = pendingChanges s
  ∧ timeoutRef (elapse s d) = Some t
  ∧ clock (elapse s d) = clock s + d.
Proof.
  intros E Hd. unfold elapse. rewrite E, bool_decide_eq_false_2 by lia.
  by rewrite E.
Qed.

Lemma elapse_idle s d :
  timeoutRef s = None →
  flushLog (elapse s d) = flushLog s
  ∧ heap (elapse s d) = heap s
  ∧ pendingChanges (elapse s d) = pendingChanges s
  ∧ timeoutRef (elapse s d) = None
  ∧ readOnly (elapse s d) = readOnly s
  ∧ clock (elapse s d) = clock s + d.
Proof. intros E. unfold elapse. by rewrite E. Qed.

(** The continuation after [await] touches the status and the list of
    suspended pushes only. *)
Lemma settle_frame s k ok :
  heap (settle s k ok) = heap s
  ∧ pendingChanges (settle s k ok) = pendingChanges s
  ∧ timeoutRef (settle s k ok) = timeoutRef s
  ∧ flushLog (settle s k ok) = flushLog s
  ∧ clock (settle s k ok) = clock s
  ∧ readOnly (settle s k ok) = readOnly s
  ∧ doc (settle s k ok) = doc s.
Proof. unfold settle. by case_bool_decide. Qed.

Lemma wf_with_doc s d : wf s → wf (with_doc s d).
Proof. done. Qed.

(** Time passes the same way in one stretch or in two. *)
Lemma elapse_add s (a b : nat) : elapse (elapse s a) b = elapse s (a + b).
Proof.
  destruct s as [ro dc ld st hp pc [t|] ck fl aw]; unfold elapse;
    cbn [readOnly doc loading syncStatus heap pendingChanges timeoutRef
         clock flushLog awaiting].
  - destruct (decide (deadline t ≤ ck + a)) as [Ha|Ha].
    + rewrite (bool_decide_eq_true_2 (deadline t ≤ ck + a)) by done.
      rewrite (bool_decide_eq_true_2 (deadline t ≤ ck + (a + b))) by lia.
      cbn [flush readOnly doc loading syncStatus heap pendingChanges
           timeoutRef clock flushLog awaiting]. f_equal. lia.
    + rewrite (bool_decide_eq_false_2 (deadline t ≤ ck + a)) by done.
      cbn [readOnly doc loading syncStatus heap pendingChanges timeoutRef
           clock flushLog awaiting].
      destruct (decide (deadline t ≤ ck + (a + b))) as [Hb|Hb].
      * rewrite !bool_decide_eq_true_2 by lia.
        cbn [flush readOnly doc loading syncStatus heap pendingChanges
             timeoutRef clock flushLog awaiting]. f_equal. lia.
      * rewrite !bool_decide_eq_false_2 by lia.
        cbn [readOnly doc loading syncStatus heap pendingChanges timeoutRef
             clock flushLog awaiting]. f_equal. lia.
  - f_equal. lia.
Qed.

(** What a user edit does to a writable board. *)
Lemma userEdit_effect s c :
  wf s → readOnly s = false →
  let s' := userEdit s c in
  wf s' ∧ readOnly s' = false
  ∧ buffer s' = absorb (buffer s) c
  ∧ flushLog s' = flushLog s
  ∧ awaiting s' = awaiting s
  ∧ timeoutRef s' = Some (mkTimer (clock s + 500) (pendingChanges s'))
  ∧ clock s' = clock s
  ∧ syncStatus s' = syncing.
Proof.
  intros Hwf Hro. cbn zeta.
  destruct (userEdit_listener s c Hro) as [d ->].
  split_and!; try done.
  - by apply wf_listener.
  - by rewrite buffer_listener.
Qed.

(** What the passing of time does once the timer is due. *)
Lemma elapse_due s t d :
  wf s → timeoutRef s = Some t → deadline t ≤ clock s + d →
  let s' := elapse s d in
  wf s' ∧ readOnly s' = readOnly s
  ∧ buffer s' = emptyPending
  ∧ flushLog s'
    = flushLog s ++ [mkFlush (deadline t) (buffer s) (hasChanges (buffer s))]
  ∧ timeoutRef s' = None
  ∧ clock s' = clock s + d.
Proof.
  intros Hwf E Hd. cbn zeta.
  destruct (elapse_fires s t d E Hd) as (F1 & F2 & F3 & F4 & F5 & F6 & F7 & F8).
  destruct (flush_snapshot s t Hwf E) as (G1 & G2 & G3 & G4).
  split_and!; try done.
  - by apply wf_elapse.
  - unfold buffer in *. by rewrite F2, F3.
  - by rewrite F1.
Qed.

(** What the passing of time does while no timer is pending. *)
Lemma elapse_quiet s d :
  wf s → timeoutRef s = None →
  let s' := elapse s d in
  wf s' ∧ readOnly s' = readOnly s
  ∧ buffer s' = buffer s
  ∧ flushLog s' = flushLog s
  ∧ timeoutRef s' = None
  ∧ clock s' = clock s + d.
Proof.
  intros Hwf E. cbn zeta.
  destruct (elapse_idle s d E) as (F1 & F2 & F3 & F4 & F5 & F6).
  split_and!; try done.
  - by apply wf_elapse.
  - unfold buffer. by rewrite F2, F3.
Qed.

(** What the continuation after [await] leaves alone. *)
Lemma settle_effect s k ok :
  wf s →
  let s' := settle s k ok in
  wf s' ∧ readOnly s' = readOnly s
  ∧ buffer s' = buffer s
  ∧ flushLog s' = flushLog s
  ∧ timeoutRef s' = timeoutRef s
  ∧ clock s' = clock s.
Proof.
  intros Hwf. cbn zeta.
  destruct (settle_frame s k ok) as (F1 & F2 & F3 & F4 & F5 & F6 & F7).
  split_and!; try done.
  - by apply wf_settle.
  - unfold buffer. by rewrite F1, F2.
Qed.

(** A flush with something to send suspends at [await]. *)
Lemma elapse_due_awaiting s t d :
  wf s → timeoutRef s = Some t → deadline t ≤ clock s + d →
  hasChanges (buffer s) = true →
  awaiting (elapse s d) = awaiting s ++ [length (flushLog s)].
Proof.
  intros [Hb Ht] E Hd Hs. destruct (Ht t E) as [Hc _].
  destruct (elapse_fires s t d E Hd) as (_ & _ & _ & _ & -> & _).
  unfold flush, buffer in *; simpl. by rewrite Hc, Hs.
Qed.

Lemma settle_status s k ok :
  k ∈ awaiting s →
  syncStatus (settle s k ok) = (if ok then synced else error)
  ∧ k ∉ awaiting (settle s k ok).
Proof.
  intros Hk. unfold settle. rewrite bool_decide_eq_true_2 by done. simpl.
  split; [done|]. rewrite list_elem_of_filter. tauto.
Qed.

End Debounce.

(** * The buffer under the store's own histories *)

Section StoreHistories.
Import DeltaBuffer Board.
Implicit Types (s : State) (c : RecordsDiff) (p : PendingChangeSet)
  (d : gmap string TLRecord).

Lemma tracked_added d p (rs : list TLRecord) :
  Forall (λ r, updated p !! id r = None) rs →
  tracked d p → tracked (store_put d rs) (foldl handleAdded p rs).
Proof.
  revert d p. induction rs as [|r rs IH]; intros d p Hf Ht; [done|].
  inversion Hf as [|? ? Hr Hrest]; subst. simpl. apply IH; [done|].
  destruct Ht as [He Hd]. split.
  - by apply handleAdded_exclusive.
  - simpl. intros i Hi. destruct (decide (id r = i)) as [<-|Hne].
    + rewrite lookup_insert_eq. eauto.
    + rewrite lookup_insert_ne by done. by apply Hd.
Qed.

Lemma tracked_updated d p (ch : TLRecord * option TLRecord) :
  tracked d p →
  tracked (match ch.2 with Some next => <[id next := next]> d | None => d end)
          (handleUpdated p ch).
Proof.
  intros Ht. split; [apply handleUpdated_exclusive, Ht|].
  destruct Ht as [_ Hd]. unfold handleUpdated.
  destruct ch as [prev [next|]]; simpl; [|done].
  intros i. destruct (added p !! id next); simpl; intros Hi;
    (destruct (decide (id next = i)) as [<-|Hne];
     [rewrite lookup_insert_eq; eauto | rewrite lookup_insert_ne by done]).
  - by apply Hd.
  - apply Hd. by rewrite lookup_insert_ne in Hi.
Qed.

Lemma tracked_removed d p (r : TLRecord) :
  tracked d p → tracked (delete (id r) d) (handleRemoved p r).
Proof.
  intros Ht. split; [apply handleRemoved_exclusive, Ht|].
  destruct Ht as [He Hd].
  pose proof (proj1 (exclusive_lookup p) He (id r)) as ([Ha|Hu] & _);
    unfold handleRemoved.
  - rewrite Ha. simpl. intros i Hi.
    destruct (decide (id r = i)) as [<-|Hne].
    + rewrite lookup_delete_eq in Hi. by destruct Hi.
    + rewrite lookup_delete_ne in Hi by done.
      rewrite lookup_delete_ne by done. by apply Hd.
  - destruct (added p !! id r); simpl; intros i Hi;
      destruct (decide (id r = i)) as [<-|Hne].
    + rewrite Hu in Hi. by destruct Hi.
    + rewrite lookup_delete_ne by done. by apply Hd.
    + rewrite lookup_delete_eq in Hi. by destruct Hi.
    + rewrite lookup_delete_ne in Hi by done.
      rewrite lookup_delete_ne by done. by apply Hd.
Qed.

(** When the store reports a record as added, no update of it is pending. *)
Lemma consistent_add_fresh d p (r : TLRecord) :
  tracked d p → store_consistent d (add r) → updated p !! id r = None.
Proof.
  intros [_ Hd] Hc. inversion Hc as [|? ? Hr _]; subst.
  destruct (updated p !! id r) eqn:E; [|done].
  destruct (Hd (id r)) as [v Hv]; [eauto | congruence].
Qed.

(** One consistent user edit keeps the buffer in step with the store. *)
Lemma tracked_absorb d p c :
  store_consistent d c → tracked d p →
  tracked (store_apply d c) (absorb p c).
Proof.
  intros Hc Ht. unfold store_apply, absorb.
  assert (tracked (store_put d (chg_added c))
            (foldl handleAdded p (chg_added c))) as H1.
  { apply tracked_added; [|done]. eapply Forall_impl; [exact Hc|].
    intros r Hr. simpl in Hr. destruct Ht as [_ Hd].
    destruct (updated p !! id r) eqn:E; [|done].
    destruct (Hd (id r)) as [v Hv]; [eauto | congruence]. }
  revert H1.
  generalize (store_put d (chg_added c)) (foldl handleAdded p (chg_added c)).
  intros d1 p1 H1.
  assert (tracked
            (foldl (λ m ch, match ch.2 with
                            | Some next => <[id next := next]> m
                            | None => m
                            end) d1 (chg_updated c))
            (foldl handleUpdated p1 (chg_updated c))) as H2.
  { revert d1 p1 H1. induction (chg_updated c) as [|ch l IH];
      intros d1 p1 H1; [done|].
    simpl. apply IH. by apply tracked_updated. }
  revert H2.
  generalize (foldl (λ m ch, match ch.2 with
                             | Some next => <[id next := next]> m
                             | None => m
                             end) d1 (chg_updated c))
             (foldl handleUpdated p1 (chg_updated c)).
  clear. intros d2 p2. revert d2 p2.
  induction (chg_removed c) as [|r l IH]; intros d2 p2 H2; [done|].
  simpl. apply IH. by apply tracked_removed.
Qed.

Lemma tracked_empty d : tracked d emptyPending.
Proof.
  split; [apply exclusive_empty|]. simpl. intros i Hi.
  rewrite lookup_empty in Hi. by destruct Hi.
Qed.

Lemma tracked_step s e :
  wf s → readOnly s = false → admissible s e →
  tracked (doc s) (buffer s) → tracked (doc (step s e)) (buffer (step s e)).
Proof.
  intros Hwf Hro Ha Ht.
  destruct e as [c|records|w|k ok]; cbn [step admissible] in *.
  - destruct (userEdit_effect s c Hwf Hro) as (_ & _ & -> & _).
    replace (doc (userEdit s c)) with (store_apply (doc s) c)
      by (unfold userEdit, dispatch; simpl; by rewrite Hro).
    by apply tracked_absorb.
  - destruct (onRecords_frame s records) as (F1 & F2 & _).
    unfold buffer in *. rewrite F1, F2, doc_onRecords.
    destruct Ht as [He Hd]. split; [done|].
    intros i Hi. by apply store_put_keeps, Hd.
  - replace (doc (elapse s w)) with (doc s)
      by (unfold elapse; destruct (timeoutRef s); [case_bool_decide|]; done).
    destruct (timeoutRef s) as [t|] eqn:E.
    + destruct (decide (deadline t ≤ clock s + w)) as [Hd|Hd].
      * destruct (elapse_due s t w Hwf E Hd) as (_ & _ & -> & _).
        apply tracked_empty.
      * destruct (elapse_waits s t w E) as (_ & F2 & F3 & _); [lia|].
        unfold buffer in *. by rewrite F2, F3.
    + destruct (elapse_quiet s w Hwf E) as (_ & _ & -> & _). done.
  - destruct (settle_effect s k ok Hwf) as (_ & _ & -> & _).
    by destruct (settle_frame s k ok) as (_ & _ & _ & _ & _ & _ & ->).
Qed.

Lemma readOnly_step s e : readOnly (step s e) = readOnly s.
Proof.
  destruct e as [c|records|w|k ok]; simpl.
  - unfold userEdit, dispatch. simpl. by destruct (readOnly s) eqn:E.
  - unfold onRecords, mergeRemoteChanges, dispatch.
    destruct (bool_decide _); simpl; [|done]. by destruct (readOnly s) eqn:E.
  - unfold elapse. destruct (timeoutRef s); [case_bool_decide|]; done.
  - by destruct (settle_frame s k ok) as (_ & _ & _ & _ & _ & -> & _).
Qed.

(** On a writable board, whatever the interleaving of user edits the store
    can report, inbound batches, timer expiries and push results, the
    buffer stays exclusive. *)
Lemma exclusive_reachable (es : list Event) :
  admissible_run (init false) es →
  exclusive (buffer (run (init false) es)).
Proof.
  intros Ha.
  cut (tracked (doc (run (init false) es)) (buffer (run (init false) es)));
    [by intros [? _]|].
  pose proof (wf_init false) as Hwf.
  assert (readOnly (init false) = false) as Hro by done.
  assert (tracked (doc (init false)) (buffer (init false))) as Ht
    by apply tracked_empty.
  revert Ha Hwf Hro Ht. generalize (init false).
  induction es as [|e es IH]; intros s Ha Hwf Hro Ht; [done|].
  destruct Ha as [He Hes]. simpl. apply IH; [done| | |].
  - by apply wf_step.
  - by rewrite readOnly_step.
  - by apply tracked_step.
Qed.

End StoreHistories.

Section DebounceClaims.
Import DeltaBuffer Board.
Implicit Types (s : State) (c : RecordsDiff) (t : Timer).

(** Successive waits add up. *)
Lemma run_elapse s (d : nat) (ds : list nat) :
  run s (Elapse <$> d :: ds) = elapse s (d + sum_list ds).
Proof.
  revert s d. induction ds as [|d' ds IH]; intros s d.
  - simpl. by rewrite Nat.add_0_r.
  - change (run s (Elapse <$> d :: d' :: ds))
      with (run (elapse s d) (Elapse <$> d' :: ds)).
    rewrite IH, elapse_add. done.
Qed.

(** The [hasChanges] test holds exactly of the non-empty change-sets. *)
Lemma hasChanges_nonempty (p : PendingChangeSet) :
  hasChanges p = true ↔ p ≠ emptyPending.
Proof.
  unfold hasChanges. rewrite !orb_true_iff, !negb_true_iff.
  rewrite !bool_decide_eq_false. destruct p as [a u r].
  cbn [added updated removed]. unfold emptyPending. split.
  - intros [[H|H]|H] [= -> -> ->]; by apply H.
  - intros Hne.
    destruct (decide (a = ∅)) as [->|Ha]; [|by left; left].
    destruct (decide (u = ∅)) as [->|Hu]; [|by left; right].
    destruct (decide (r = ∅)) as [->|Hr]; [|by right].
    by destruct Hne.
Qed.

Lemma hasChanges_added (p : PendingChangeSet) (i : string) (r : TLRecord) :
  added p !! i = Some r → hasChanges p = true.
Proof.
  intros Hi. apply hasChanges_nonempty. intros ->.
  cbn [emptyPending added] in Hi. by rewrite lookup_empty in Hi.
Qed.

(** One added record, absorbed into an empty buffer. *)
Lemma absorb_add_empty (r : TLRecord) :
  absorb emptyPending (add r) = mkPending {[id r := r]} ∅ ∅.
Proof.
  rewrite absorb_add. unfold handleAdded, emptyPending.
  cbn [added updated removed]. by rewrite insert_empty, delete_empty.
Qed.

(** An add, an update of the same record and an add of another record,
    absorbed in this order into an empty buffer. *)
Lemma absorb_add_update_add (ra rb rc prev : TLRecord) :
  id rb = id ra → id rc ≠ id ra →
  absorb (absorb (absorb emptyPending (add ra)) (update prev rb)) (add rc)
  = mkPending (<[id rc := rc]> {[id ra := rb]}) ∅ ∅.
Proof.
  intros Hb Hc. rewrite absorb_add_empty, absorb_update, absorb_add.
  unfold handleUpdated. cbn [snd added updated removed].
  rewrite Hb, lookup_singleton_eq. unfold handleAdded.
  cbn [added updated removed].
  by rewrite insert_singleton_eq, delete_empty.
Qed.

Lemma userEdit_awaiting s c : awaiting (userEdit s c) = awaiting s.
Proof. unfold userEdit, dispatch. simpl. by destruct (readOnly s) eqn:E. Qed.

Lemma elapse_idle_awaiting s (d : nat) :
  timeoutRef s = None → awaiting (elapse s d) = awaiting s.
Proof. intros E. unfold elapse. by rewrite E. Qed.

Lemma three_edits_pending c1 c2 c3 :
  flushLog (run (init false)
              [Local c1; Elapse 200; Local c2; Elapse 400; Local c3]) = [].
Proof.
  cbn -[absorb hasChanges Nat.leb bool_decide]. unfold elapse.
  cbn -[absorb hasChanges bool_decide Nat.add].
  rewrite (bool_decide_eq_false_2 (500 ≤ 0 + 200)) by (unfold debounce; lia).
  cbn -[absorb hasChanges bool_decide Nat.add].
  rewrite (bool_decide_eq_false_2 (0 + 200 + debounce ≤ 0 + 200 + 400))
    by (unfold debounce; lia).
  done.
Qed.

Lemma three_edits_then_wait c1 c2 c3 (d : nat) :
  let folded := absorb (absorb (absorb emptyPending c1) c2) c3 in
  flushLog (elapse (run (init false)
                      [Local c1; Elapse 200; Local c2; Elapse 400; Local c3]) d)
  = if bool_decide (500 ≤ d)
    then [mkFlush 1100 folded (hasChanges folded)]
    else [].
Proof.
  cbn -[absorb hasChanges Nat.leb bool_decide]. unfold elapse.
  cbn -[absorb hasChanges bool_decide Nat.add].
  rewrite (bool_decide_eq_false_2 (500 ≤ 0 + 200)) by (unfold debounce; lia).
  cbn -[absorb hasChanges bool_decide Nat.add].
  rewrite (bool_decide_eq_false_2 (0 + 200 + debounce ≤ 0 + 200 + 400))
    by (unfold debounce; lia).
  cbn -[absorb hasChanges bool_decide Nat.add].
  destruct (decide (500 ≤ d)) as [Hd|Hd].
  - rewrite !bool_decide_eq_true_2 by (unfold debounce; lia). done.
  - rewrite !bool_decide_eq_false_2 by (unfold debounce; lia). done.
Qed.

(** Three edits at 0, 200 and 600 ms on a fresh writable board, then any
    waits: the flush log. *)
Lemma three_edits_log c1 c2 c3 (ds : list nat) :
  let folded := absorb (absorb (absorb emptyPending c1) c2) c3 in
  flushLog (run (init false)
              ([Local c1; Elapse 200; Local c2; Elapse 400; Local c3]
               ++ (Elapse <$> ds)))
  = if bool_decide (500 ≤ sum_list ds)
    then [mkFlush 1100 folded (hasChanges folded)]
    else [].
Proof.
  cbn zeta. unfold run at 1. rewrite foldl_app.
  fold (run (init false)
          [Local c1; Elapse 200; Local c2; Elapse 400; Local c3]).
  destruct ds as [|d ds].
  - simpl sum_list. rewrite bool_decide_eq_false_2 by lia.
    apply three_edits_pending.
  - fold (run (run (init false)
                 [Local c1; Elapse 200; Local c2; Elapse 400; Local c3])
            (Elapse <$> d :: ds)).
    rewrite run_elapse. apply three_edits_then_wait.
Qed.

(** C4 — debounce timing.  Whatever timer was pending, the listener leaves
    one timer due 500 ms after the edit; as time passes the callback runs
    exactly when those 500 ms are over; and for user edits at 0, 200 and
    600 ms on a fresh writable board, however the time after the last edit
    is cut into waits, the flush log is empty while less than 500 ms have
    passed since that edit and from then on holds a single flush, at
    1100 ms, whose payload is the three edits folded in order.  That flush
    is pushed unless the three edits fold to nothing; and when the edits
    are an add of a record, an update of it and an add of a second record,
    the one flush is pushed and carries under [added] the updated version
    of the first record and the second record, and nothing else. *)
Theorem debounce_timing c1 c2 c3 (ds : list nat) :
  (∀ s c, timeoutRef (listener s (mkNotification c user))
          = Some (mkTimer (clock s + 500) (pendingChanges s)))
  ∧ (∀ s c (w : nat),
       let s' := listener s (mkNotification c user) in
       flushLog (elapse s' w)
       = if bool_decide (500 ≤ w)
         then flushLog s
              ++ [mkFlush (clock s + 500) (buffer s') (hasChanges (buffer s'))]
         else flushLog s)
  ∧ (let s := run (init false)
                ([Local c1; Elapse 200; Local c2; Elapse 400; Local c3]
                 ++ (Elapse <$> ds)) in
     let folded := absorb (absorb (absorb emptyPending c1) c2) c3 in
     flushLog s
     = if bool_decide (500 ≤ sum_list ds)
       then [mkFlush 1100 folded (hasChanges folded)]
       else [])
  ∧ (let s := run (init false)
                ([Local c1; Elapse 200; Local c2; Elapse 400; Local c3]
                 ++ (Elapse <$> ds)) in
     let folded := absorb (absorb (absorb emptyPending c1) c2) c3 in
     500 ≤ sum_list ds →
     outbound s
     = if decide (folded = emptyPending) then []
       else [mkFlush 1100 folded true])
  ∧ (∀ ra rb rc prev : TLRecord,
       id rb = id ra → id rc ≠ id ra → 500 ≤ sum_list ds →
       let s := run (init false)
                  ([Local (add ra); Elapse 200; Local (update prev rb);
                    Elapse 400; Local (add rc)] ++ (Elapse <$> ds)) in
       flushLog s
       = [mkFlush 1100 (mkPending (<[id rc := rc]> {[id ra := rb]}) ∅ ∅) true]
       ∧ outbound s = flushLog s).
Proof.
  split_and!.
  - done.
  - intros s c w. cbn zeta. unfold elapse, listener at 1 2 3 4; simpl.
    unfold debounce.
    destruct (decide (500 ≤ w)) as [Hw|Hw].
    + rewrite !bool_decide_eq_true_2 by lia. done.
    + rewrite !bool_decide_eq_false_2 by lia. done.
  - apply three_edits_log.
  - cbn zeta. intros Hw. unfold outbound.
    rewrite three_edits_log, bool_decide_eq_true_2 by done.
    destruct (decide (absorb (absorb (absorb emptyPending c1) c2) c3
                      = emptyPending)) as [He|Hne].
    + assert (hasChanges (absorb (absorb (absorb emptyPending c1) c2) c3)
              = false) as ->; [|done].
      apply not_true_is_false. rewrite hasChanges_nonempty. tauto.
    + by rewrite (proj2 (hasChanges_nonempty _) Hne).
  - intros ra rb rc prev Hb Hc Hw. cbn zeta. unfold outbound.
    rewrite three_edits_log, bool_decide_eq_true_2 by done.
    rewrite absorb_add_update_add by done.
    rewrite (hasChanges_added _ (id rc) rc)
      by (cbn [added]; apply lookup_insert_eq).
    done.
Qed.

Lemma debounce_timing_witness :
  let ra := mkRecord "1" "A" in
  let rb := mkRecord "1" "B" in
  let rc := mkRecord "2" "C" in
  let s := run (init false)
             [Local (add ra); Elapse 200; Local (update ra rb); Elapse 400;
              Local (add rc); Elapse 500] in
  ∃ f, flushLog s = [f] ∧ outbound s = [f] ∧ f_time f = 1100
       ∧ added (f_payload f) !! "1" = Some rb
       ∧ added (f_payload f) !! "2" = Some rc.
Proof.
  intros ra rb rc s.
  destruct (debounce_timing (add ra) (update ra rb) (add rc) [500])
    as (_ & _ & _ & _ & H).
  destruct (H ra rb rc ra) as [Hl Ho];
    [reflexivity | discriminate | simpl; lia |].
  eexists. split; [exact Hl|]. split; [by rewrite <- Hl|].
  split; [reflexivity|]. split; vm_compute; reflexivity.
Defined.

(** A flush, then an edit [g] ms later, then the next flush: the log. *)
Lemma flush_then_edit s t c (g : nat) (ok : bool) :
  wf s → readOnly s = false → timeoutRef s = Some t →
  let k := length (flushLog s) in
  let first := mkFlush (deadline t) (buffer s) (hasChanges (buffer s)) in
  let s1 := elapse s (deadline t - clock s) in
  let s2 := run s1 [Elapse g; Local c] in
  let second := mkFlush (deadline t + g + 500) (absorb emptyPending c)
                  (hasChanges (absorb emptyPending c)) in
  (flushLog s1 = flushLog s ++ [first] ∧ buffer s1 = emptyPending)
  ∧ (flushLog s2 = flushLog s ++ [first]
     ∧ buffer s2 = absorb emptyPending c)
  ∧ flushLog (run s2 [Settle k ok; Elapse 500])
    = flushLog s ++ [first; second]
  ∧ flushLog (run s2 [Elapse 500; Settle k ok])
    = flushLog s ++ [first; second].
Proof.
  intros Hwf Hro Ht. cbn zeta.
  assert (clock s ≤ deadline t) as Hck by (destruct Hwf as [_ H]; by apply H).
  destruct (elapse_due s t (deadline t - clock s) Hwf Ht)
    as (W1 & R1 & B1 & L1 & T1 & C1); [lia|].
  set (s1 := elapse s (deadline t - clock s)) in *.
  change (run s1 [Elapse g; Local c]) with (userEdit (elapse s1 g) c).
  destruct (elapse_quiet s1 g W1 T1) as (W1' & R1' & B1' & L1' & T1' & C1').
  destruct (userEdit_effect (elapse s1 g) c W1')
    as (W2 & R2 & B2 & L2 & A2 & T2 & C2 & _); [congruence|].
  set (s2 := userEdit (elapse s1 g) c) in *.
  assert (clock s2 + 500 = deadline t + g + 500) as Hdl by lia.
  split_and!; [done | done | congruence | congruence | |].
  - change (run s2 [Settle (length (flushLog s)) ok; Elapse 500])
      with (elapse (settle s2 (length (flushLog s)) ok) 500).
    destruct (settle_effect s2 (length (flushLog s)) ok W2)
      as (W3 & R3 & B3 & L3 & T3 & C3).
    rewrite T2 in T3.
    destruct (elapse_due _ _ 500 W3 T3) as (_ & _ & _ & L4 & _);
      [simpl; lia|].
    rewrite L4, L3, L2, L1', L1, B3, B2, B1', B1, <- app_assoc. simpl.
    repeat f_equal. lia.
  - change (run s2 [Elapse 500; Settle (length (flushLog s)) ok])
      with (settle (elapse s2 500) (length (flushLog s)) ok).
    destruct (elapse_due s2 _ 500 W2 T2) as (W3 & _ & _ & L3 & _);
      [simpl; lia|].
    destruct (settle_effect (elapse s2 500) (length (flushLog s)) ok W3)
      as (_ & _ & _ & L4 & _).
    rewrite L4, L3, L2, L1', L1, B2, B1', B1, <- app_assoc. simpl.
    repeat f_equal. lia.
Qed.

(** C3 — snapshot before send.  When the timer of a reachable, writable
    board fires, the flush records the buffer as it was and leaves an empty
    buffer behind in the same step.  A user edit that arrives [g] ms later
    goes into the new buffer and leaves the recorded snapshot as it was; the
    next flush, 500 ms after that edit, carries exactly that edit, whether
    the first push settles before or after it.  In particular, when the
    edit adds a record [r] the first snapshot does not hold, the first
    flush is without [r] and the second flush is pushed and holds [r] under
    [added] and nothing else; and when the first snapshot is non-empty, it
    was pushed and its push is still awaited when the edit is absorbed. *)
Theorem snapshot_before_send s t c (r : TLRecord) (g : nat) (ok : bool) :
  wf s → readOnly s = false → timeoutRef s = Some t →
  let k := length (flushLog s) in
  let first := mkFlush (deadline t) (buffer s) (hasChanges (buffer s)) in
  let s1 := elapse s (deadline t - clock s) in
  let s2 := run s1 [Elapse g; Local c] in
  let second := mkFlush (deadline t + g + 500) (absorb emptyPending c)
                  (hasChanges (absorb emptyPending c)) in
  (flushLog s1 = flushLog s ++ [first] ∧ buffer s1 = emptyPending)
  ∧ (flushLog s2 = flushLog s ++ [first]
     ∧ buffer s2 = absorb emptyPending c)
  ∧ flushLog (run s2 [Settle k ok; Elapse 500])
    = flushLog s ++ [first; second]
  ∧ flushLog (run s2 [Elapse 500; Settle k ok])
    = flushLog s ++ [first; second]
  ∧ (added (buffer s) !! id r = None →
     let e := run s1 [Elapse g; Local (add r)] in
     let sent2 := mkFlush (deadline t + g + 500)
                    (mkPending {[id r := r]} ∅ ∅) true in
     added (buffer e) !! id r = Some r
     ∧ flushLog e = flushLog s ++ [first]
     ∧ added (f_payload first) !! id r = None
     ∧ added (f_payload sent2) !! id r = Some r
     ∧ flushLog (run e [Settle k ok; Elapse 500])
       = flushLog s ++ [first; sent2]
     ∧ flushLog (run e [Elapse 500; Settle k ok])
       = flushLog s ++ [first; sent2]
     ∧ (hasChanges (buffer s) = true →
        f_sent first = true ∧ k ∈ awaiting e)).
Proof.
  intros Hwf Hro Ht. cbn zeta.
  destruct (flush_then_edit s t c g ok Hwf Hro Ht) as (H1 & H2 & H3 & H4).
  split_and!; [apply H1 | apply H1 | apply H2 | apply H2 | done | done |].
  intros Hfresh.
  destruct (flush_then_edit s t (add r) g ok Hwf Hro Ht)
    as (_ & [L2 B2] & L3 & L4).
  cbn zeta in L2, B2, L3, L4.
  rewrite absorb_add_empty in B2, L3, L4.
  rewrite (hasChanges_added (mkPending {[id r := r]} ∅ ∅) (id r) r) in L3, L4
    by (cbn [added]; apply lookup_singleton_eq).
  assert (clock s ≤ deadline t) as Hck by (destruct Hwf as [_ H]; by apply H).
  destruct (elapse_due s t (deadline t - clock s) Hwf Ht)
    as (_ & _ & _ & _ & T1 & _); [lia|].
  pose proof (elapse_due_awaiting s t (deadline t - clock s) Hwf Ht) as A1.
  split_and!.
  - rewrite B2. cbn [added]. apply lookup_singleton_eq.
  - exact L2.
  - exact Hfresh.
  - cbn [f_payload added]. apply lookup_singleton_eq.
  - exact L3.
  - exact L4.
  - intros Hsent. split; [exact Hsent|].
    change (run (elapse s (deadline t - clock s)) [Elapse g; Local (add r)])
      with (userEdit (elapse (elapse s (deadline t - clock s)) g) (add r)).
    rewrite userEdit_awaiting, elapse_idle_awaiting by done.
    rewrite A1 by (done || lia). apply elem_of_app. right.
    by apply list_elem_of_singleton.
Qed.

(** C6 — a rejected push.  When the push of a flush rejects, the status
    becomes [error] and nothing else of the outbound machinery moves: the
    buffer objects, the buffer pointer, the timer and the flush log stay as
    they are, so the failed snapshot is neither put back nor sent again.
    In particular, with an edit absorbed while the push was in flight, the
    buffer after the rejection holds that edit alone, and the next flush,
    500 ms after the edit, carries that edit alone. *)
Theorem rejected_push_is_not_retried s t c :
  wf s → readOnly s = false → timeoutRef s = Some t →
  hasChanges (buffer s) = true →
  let k := length (flushLog s) in
  let first := mkFlush (deadline t) (buffer s) true in
  let s1 := elapse s (deadline t - clock s) in
  let s2 := step s1 (Local c) in
  let s3 := settle s2 k false in
  let later := mkFlush (deadline t + 500) (absorb emptyPending c)
                 (hasChanges (absorb emptyPending c)) in
  k ∈ awaiting s2
  ∧ syncStatus s3 = error
  ∧ heap s3 = heap s2 ∧ pendingChanges s3 = pendingChanges s2
  ∧ timeoutRef s3 = timeoutRef s2
  ∧ buffer s3 = absorb emptyPending c
  ∧ flushLog s3 = flushLog s ++ [first]
  ∧ (∀ w, w < 500 → flushLog (elapse s3 w) = flushLog s ++ [first])
  ∧ flushLog (elapse s3 500) = flushLog s ++ [first; later]
  ∧ (∀ w, flushLog (elapse (settle s1 k false) w) = flushLog s ++ [first]).
Proof.
  intros Hwf Hro Ht Hsent. cbn zeta.
  assert (clock s ≤ deadline t) as Hck by (destruct Hwf as [_ H]; by apply H).
  destruct (elapse_due s t (deadline t - clock s) Hwf Ht)
    as (W1 & R1 & B1 & L1 & T1 & C1); [lia|].
  pose proof (elapse_due_awaiting s t (deadline t - clock s) Hwf Ht) as A1.
  rewrite Hsent in L1.
  set (s1 := elapse s (deadline t - clock s)) in *.
  change (step s1 (Local c)) with (userEdit s1 c).
  destruct (userEdit_effect s1 c W1)
    as (W2 & R2 & B2 & L2 & A2 & T2 & C2 & _); [congruence|].
  set (s2 := userEdit s1 c) in *.
  set (k := length (flushLog s)) in *.
  assert (k ∈ awaiting s2) as Hk.
  { rewrite A2, A1 by (done || lia). apply elem_of_app. right.
    by apply list_elem_of_singleton. }
  destruct (settle_status s2 k false Hk) as [S3 _].
  destruct (settle_frame s2 k false) as (F1 & F2 & F3 & _).
  destruct (settle_effect s2 k false W2) as (W3 & R3 & B3 & L3 & T3 & C3).
  rewrite T2 in T3.
  split_and!; try done.
  - congruence.
  - congruence.
  - intros w Hw.
    destruct (elapse_waits _ _ w T3) as (-> & _); [simpl; lia|]. congruence.
  - destruct (elapse_due _ _ 500 W3 T3) as (_ & _ & _ & L4 & _);
      [simpl; lia|].
    rewrite L4, L3, L2, L1, B3, B2, B1, <- app_assoc. simpl.
    repeat f_equal. lia.
  - intros w.
    destruct (settle_effect s1 k false W1) as (W4 & _ & _ & L5 & T5 & _).
    rewrite T1 in T5.
    destruct (elapse_quiet _ w W4 T5) as (_ & _ & _ & -> & _). congruence.
Qed.

Lemma one_edit_wf : wf one_edit.
Proof. apply wf_run, wf_init. Qed.

Lemma snapshot_before_send_witness :
  let r1 := mkRecord "1" "A" in
  let r2 := mkRecord "2" "B" in
  let e := run (elapse one_edit 500) [Elapse 10; Local (add r2)] in
  let done_ := run e [Settle 0 true; Elapse 500] in
  wf one_edit
  ∧ hasChanges (buffer one_edit) = true
  ∧ added (buffer one_edit) !! "2" = None
  ∧ 0 ∈ awaiting e
  ∧ outbound done_
    = [mkFlush 500 (mkPending {[ "1" := r1 ]} ∅ ∅) true;
       mkFlush 1010 (mkPending {[ "2" := r2 ]} ∅ ∅) true].
Proof.
  intros r1 r2 e done_.
  destruct (snapshot_before_send one_edit (mkTimer 500 0) (add r2) r2 10 true)
    as (_ & _ & _ & _ & H);
    [exact one_edit_wf | reflexivity | reflexivity |].
  destruct H as (_ & _ & _ & _ & Hl & _ & Hs); [vm_compute; reflexivity|].
  destruct Hs as [_ Ha]; [vm_compute; reflexivity|].
  split; [exact one_edit_wf|].
  split; [vm_compute; reflexivity|]. split; [vm_compute; reflexivity|].
  split; [exact Ha|].
  unfold outbound.
  change (elapse one_edit 500) with (elapse one_edit (500 - 0)) in e.
  subst done_ e. cbn zeta in Hl. simpl length in Hl.
  etrans; [exact (f_equal (filter (λ f, f_sent f = true)) Hl)|].
  vm_compute. reflexivity.
Defined.

Lemma rejected_push_is_not_retried_witness :
  let c := add (mkRecord "2" "B") in
  let s3 := settle (step (elapse one_edit 500) (Local c)) 0 false in
  wf one_edit
  ∧ hasChanges (buffer one_edit) = true
  ∧ syncStatus s3 = error
  ∧ buffer s3 = absorb emptyPending c
  ∧ length (flushLog (elapse s3 500)) = 2.
Proof.
  intros c s3.
  destruct (rejected_push_is_not_retried one_edit (mkTimer 500 0) c)
    as (_ & Hs & _ & _ & _ & Hb & _ & _ & Hl & _);
    [exact one_edit_wf | reflexivity | reflexivity | vm_compute; reflexivity |].
  split; [exact one_edit_wf|]. split; [vm_compute; reflexivity|].
  split; [exact Hs|]. split; [exact Hb|].
  change (elapse one_edit 500) with (elapse one_edit (500 - 0)) in s3.
  subst s3. cbn zeta in Hl. simpl length in Hl.
  etrans; [exact (f_equal length Hl)|]. vm_compute. reflexivity.
Defined.

End DebounceClaims.

(** * Properties of the presence channel *)

Section PresenceClaims.
Import Presence.
Implicit Types (viewer : User) (u : PresenceRecord) (now : Z) (k : nat).

Lemma spec_displayed_iff viewer now u :
  spec_displayed viewer now u = true
  ↔ userId u ≠ uid viewer
    ∧ ∃ ms, spec_millis now (lastActive u) = Millis ms
            ∧ (now - ms < 60000)%Z.
Proof.
  unfold spec_displayed, fresh, STALE.
  rewrite andb_true_iff, negb_true_iff, bool_decide_eq_false.
  split.
  - intros [Hne Hr]. split; [done|].
    destruct (spec_millis now (lastActive u)) as [|ms]; [done|].
    exists ms. split; [done|]. by apply bool_decide_eq_true in Hr.
  - intros [Hne (ms & -> & Hlt)]. split; [done|].
    by apply bool_decide_eq_true.
Qed.

(** On a timestamp object, or without a timestamp, the expression returns
    what the specification says, on a clock that stands still. *)
Lemma resolveLastActive_stamped now k (la : LastActive) :
  stamped la →
  ∃ k', resolveLastActive la (frozen now) k
        = Returned (spec_millis now la, k').
Proof.
  destruct la as [|n|[|r|] [|r'|]]; simpl; intros Hr; try done;
    eauto.
Qed.

Lemma isActive_self viewer u (clock : nat → Z) k :
  userId u = uid viewer → isActive viewer u clock k = Returned (false, k).
Proof.
  intros E. unfold isActive. by rewrite bool_decide_eq_true_2.
Qed.

Lemma isActive_stamped viewer u now k :
  userId u = uid viewer ∨ stamped (lastActive u) →
  ∃ k', isActive viewer u (frozen now) k
        = Returned (spec_displayed viewer now u, k').
Proof.
  intros H. unfold spec_displayed.
  destruct (decide (userId u = uid viewer)) as [E|E].
  - rewrite isActive_self by done. exists k.
    by rewrite bool_decide_eq_true_2.
  - destruct H as [|Hr]; [done|].
    destruct (resolveLastActive_stamped now k _ Hr) as (k' & Hc).
    unfold isActive, bind. rewrite bool_decide_eq_false_2 by done.
    rewrite Hc. simpl. eauto.
Qed.

Lemma filterM_stamped viewer now (users : list PresenceRecord) k :
  Forall (λ u, userId u = uid viewer ∨ stamped (lastActive u)) users →
  ∃ k', filterM (isActive viewer) users (frozen now) k
        = Returned (List.filter (spec_displayed viewer now) users, k').
Proof.
  intros H. revert k. induction H as [|u rest Hu _ IH]; intros k.
  - by exists k.
  - destruct (isActive_stamped viewer u now k Hu) as [k1 E1].
    destruct (IH k1) as [k2 E2].
    exists k2. simpl. unfold bind. rewrite E1, E2. simpl.
    by destruct (spec_displayed viewer now u).
Qed.

(** The filter does not age a timestamp given as a plain number: a record
    of another user stamped, in epoch milliseconds, 61000 ms before now is
    displayed, where the specification's set leaves it out. *)
Lemma epoch_number_is_not_aged :
  ¬ (∀ (viewer : User) (now : Z) (k : nat)
       (old users : list PresenceRecord),
       ∃ k', onPresence (Some viewer) old users (frozen now) k
             = Returned (List.filter (spec_displayed viewer now) users, k')).
Proof.
  intros H.
  destruct (H (mkUser "me" None) 1000000%Z 0 []
              [mkPresence "bob" "Bob" "#3b82f6" (Finite 0) (Finite 0)
                 (RawNumber (1000000 - 61000))]) as [k' E].
  vm_compute in E. discriminate E.
Qed.

(** C7 (amended) — presence filter.  For a signed-in viewer and an update
    whose records carry their timestamp as a timestamp object or not at
    all, the callback returns and the displayed list is the received list
    filtered down to the records of other users whose age is below
    60000 ms.  A record of another user stamped 61000 ms ago is dropped and
    one stamped 59000 ms ago is kept, through [toMillis] and through
    [getTime]; the viewer's own record is dropped whatever its timestamp
    and whatever the clock; and a record of another user whose timestamp is
    a plain number is kept whatever the number. *)
Theorem presence_filter viewer now k
    (old users : list PresenceRecord) :
  Forall (λ u, userId u = uid viewer ∨ stamped (lastActive u)) users →
  (∃ k', onPresence (Some viewer) old users (frozen now) k
         = Returned (List.filter (spec_displayed viewer now) users, k'))
  ∧ (∀ u, spec_displayed viewer now u = true
          ↔ userId u ≠ uid viewer
            ∧ ∃ ms, spec_millis now (lastActive u) = Millis ms
                    ∧ (now - ms < 60000)%Z)
  ∧ (∀ u age (other : Member),
       userId u ≠ uid viewer →
       lastActive u = Object (Method (Millis (now - age))) other
       ∨ lastActive u = Object Missing (Method (Millis (now - age))) →
       ∃ k', isActive viewer u (frozen now) k
             = Returned (bool_decide (age < 60000)%Z, k'))
  ∧ (∀ u (clock : nat → Z),
       userId u = uid viewer → isActive viewer u clock k = Returned (false, k))
  ∧ (∀ u (n : Z),
       userId u ≠ uid viewer → lastActive u = RawNumber n →
       isActive viewer u (frozen now) k = Returned (true, S (S k))).
Proof.
  intros H. split_and!.
  - by apply filterM_stamped.
  - intros u. apply spec_displayed_iff.
  - intros u age other Hne Hla.
    exists (S k). unfold isActive, bind, fresh, STALE.
    rewrite bool_decide_eq_false_2 by done.
    replace (bool_decide (age < 60000)%Z)
      with (bool_decide (now - (now - age) < 60000)%Z)
      by (apply bool_decide_ext; lia).
    destruct Hla as [-> | ->]; reflexivity.
  - intros u clock E. by apply isActive_self.
  - intros u n Hne Hla. unfold isActive, bind.
    rewrite bool_decide_eq_false_2 by done. rewrite Hla.
    cbn [resolveLastActive bind Date_now ret fresh]. unfold STALE, frozen.
    by rewrite bool_decide_eq_true_2 by lia.
Qed.

Lemma presence_filter_witness :
  let viewer := mkUser "me" None in
  let rec who la := mkPresence who who "#3b82f6" (Finite 0) (Finite 0) la in
  let stale := rec "ann" (Object (Method (Millis (1000000 - 61000))) Missing) in
  let live := rec "bob" (Object Missing (Method (Millis (1000000 - 59000)))) in
  let self := rec "me" (Object NotCallable Missing) in
  let bare := rec "cy" Nullish in
  let plain := rec "dee" (RawNumber (1000000 - 61000)) in
  (∃ k', onPresence (Some viewer) [] [stale; live; self; bare]
           (frozen 1000000) 0
         = Returned ([live; bare], k'))
  ∧ isActive viewer plain (frozen 1000000) 0 = Returned (true, 2).
Proof.
  intros viewer rec stale live self bare plain.
  destruct (presence_filter viewer 1000000 0 [] [stale; live; self; bare])
    as ([k' E] & _ & _ & _ & Hn).
  - repeat (apply List.Forall_cons;
            [first [left; reflexivity | right; exact I]|]).
    apply List.Forall_nil.
  - split; [exists k'; exact E|].
    apply (Hn plain (1000000 - 61000)%Z); [discriminate | reflexivity].
Defined.

(** C8 — timestamp resolution, at the failing input.  A timestamp object
    with a [toMillis] method resolves to what the method returns, one with
    only a [getTime] method likewise, and a missing or primitive value
    resolves to the clock; but when [toMillis] (or, failing that,
    [getTime]) holds a truthy value that is not a function, the expression
    throws, and so does the whole callback for an update that contains such
    a record of another user. *)
Theorem resolution_throws_on_non_callable :
  (∀ r other clock k,
     resolveLastActive (Object (Method r) other) clock k = Returned (r, k))
  ∧ (∀ r clock k,
       resolveLastActive (Object Missing (Method r)) clock k
       = Returned (r, k))
  ∧ (∀ la clock k,
       la = Nullish ∨ (∃ n, la = RawNumber n) ∨ la = Object Missing Missing →
       resolveLastActive la clock k = Returned (Millis (clock k), S k))
  ∧ (∀ other clock k,
       resolveLastActive (Object NotCallable other) clock k = TypeError)
  ∧ (∀ clock k,
       resolveLastActive (Object Missing NotCallable) clock k = TypeError)
  ∧ (let u := mkPresence "u2" "Ann" "#3b82f6" (Finite 0) (Finite 0)
                (Object NotCallable Missing) in
     ∀ clock k,
       onPresence (Some (mkUser "u1" None)) [] [u] clock k = TypeError).
Proof.
  split_and!; try done.
  intros la clock k [-> | [[n ->] | ->]]; reflexivity.
Qed.

Lemma resolution_throws_on_non_callable_witness :
  resolveLastActive (RawNumber 1700000000000) (frozen 5) 0
  = Returned (Millis 5, 1).
Proof.
  destruct resolution_throws_on_non_callable as (_ & _ & H & _).
  apply (H (RawNumber 1700000000000) (frozen 5) 0).
  right; left. by exists 1700000000000%Z.
Defined.

(** Rounding a finite sample gives the integer within half a unit of it,
    the upper one on a tie. *)
Lemma Math_round_finite (q : Q) :
  ∃ n : Z, Math_round (Finite q) = Finite (inject_Z n)
           ∧ (inject_Z n - (1 # 2) <= q)%Q ∧ (q < inject_Z n + (1 # 2))%Q.
Proof.
  exists (Qfloor (q + (1 # 2))). split; [done|].
  pose proof (Qfloor_le (q + (1 # 2))) as Hlo.
  pose proof (Qlt_floor (q + (1 # 2))) as Hhi.
  rewrite inject_Z_plus in Hhi. change (inject_Z 1) with 1%Q in Hhi.
  split; lra.
Qed.

(** The publisher does publish a sample with an infinite coordinate. *)
Lemma infinite_sample_is_published :
  ¬ (∀ (now last : Z) (user : User) (name : option string) (pt : Point),
       Number_isFinite (px pt) && Number_isFinite (py pt) = false →
       (broadcast now last user name pt).1 = None).
Proof.
  intros H.
  specialize (H 1000%Z 0%Z (mkUser "me" None) None
                (mkPoint (Infinity false) (Finite 0)) eq_refl).
  discriminate H.
Qed.

(** C9 (amended) — on a sampling tick the publisher skips the publish call
    whenever a sampled coordinate is NaN; once 100 ms have passed since the
    last publish and neither coordinate is NaN it publishes; and what it
    publishes as [x] and [y] is [Math.round] of the sample, which for a
    finite sample is the nearest integer and for an infinite one the
    infinity itself. *)
Theorem broadcast_skips_nan_and_rounds (now last : Z) (user : User)
    (name : option string) (pt : Point) :
  (Number_isNaN (px pt) = true ∨ Number_isNaN (py pt) = true →
   broadcast now last user name pt = (None, last))
  ∧ ((100 <= now - last)%Z →
     Number_isNaN (px pt) = false → Number_isNaN (py pt) = false →
     ∃ upd, broadcast now last user name pt = (Some upd, now))
  ∧ (∀ upd, (broadcast now last user name pt).1 = Some upd →
            pu_x upd = Math_round (px pt) ∧ pu_y upd = Math_round (py pt))
  ∧ (∀ q : Q, ∃ n : Z, Math_round (Finite q) = Finite (inject_Z n)
                       ∧ (inject_Z n - (1 # 2) <= q)%Q
                       ∧ (q < inject_Z n + (1 # 2))%Q)
  ∧ (∀ b, Math_round (Infinity b) = Infinity b).
Proof.
  unfold broadcast, THROTTLE. split_and!.
  - intros Hnan. case_bool_decide; [done|].
    destruct Hnan as [-> | ->]; [done|]. by rewrite andb_false_r.
  - intros Hd -> ->. rewrite bool_decide_eq_false_2 by lia. simpl. eauto.
  - intros upd. case_bool_decide; [done|].
    destruct (negb _ && negb _); [|done]. simpl. by intros [= <-].
  - apply Math_round_finite.
  - done.
Qed.

Lemma broadcast_skips_nan_and_rounds_witness :
  let user := mkUser "me" (Some "me@example.org") in
  broadcast 1000 0 user None (mkPoint NaN (Finite 3)) = (None, 0%Z)
  ∧ ∃ upd, broadcast 1000 0 user None (mkPoint (Finite (5 # 2)) (Finite (-5 # 2)))
           = (Some upd, 1000%Z)
           ∧ pu_userName upd = "me"
           ∧ pu_x upd = Finite (inject_Z 3) ∧ pu_y upd = Finite (inject_Z (-2)).
Proof.
  intros user. split.
  - apply (broadcast_skips_nan_and_rounds 1000 0 user None
             (mkPoint NaN (Finite 3))).
    left. reflexivity.
  - destruct (broadcast_skips_nan_and_rounds 1000 0 user None
                (mkPoint (Finite (5 # 2)) (Finite (-5 # 2))))
      as (_ & Hpub & _).
    destruct Hpub as [upd E]; [lia | reflexivity | reflexivity |].
    exists upd. split; [exact E|].
    injection E as <-. repeat split; reflexivity.
Defined.

End PresenceClaims.

(** * Further properties of the fold rules *)

Section MoreFoldRules.
Import DeltaBuffer Board Lifecycle.
Implicit Types (p : PendingChangeSet) (r : TLRecord) (i : string)
  (c : RecordsDiff).

(** Removal then add of one id, in an exclusive buffer. *)
Lemma remove_then_add_revives_aux p (gone rb : TLRecord) :
  exclusive p → id rb = id gone →
  let q := absorb (absorb p (remove gone)) (add rb) in
  added q !! id gone = Some rb ∧ updated q !! id gone = None
  ∧ removed q !! id gone = None.
Proof.
  intros He Hb. cbn zeta. rewrite absorb_remove, absorb_add.
  pose proof (proj1 (exclusive_lookup p) He (id gone)) as (H1 & H2 & H3).
  unfold handleAdded, handleRemoved.
  destruct (added p !! id gone) eqn:E; simpl; rewrite Hb;
    rewrite lookup_insert_eq, !lookup_delete_eq; split_and!; try done.
  destruct H1; congruence.
Qed.

(** X1 — a pending update is overwritten by a later update and dropped by a
    later removal.  For an id not among the buffer's additions, two updates
    leave the second version under [updated] and nothing elsewhere, and an
    update followed by a removal leaves the removed record under [removed]
    and nothing elsewhere. *)
Theorem update_then_update_or_remove p (ra rb gone prev1 prev2 : TLRecord) :
  added p !! id ra = None →
  id rb = id ra → id gone = id ra →
  (let q := absorb (absorb p (update prev1 ra)) (update prev2 rb) in
   added q !! id ra = None ∧ updated q !! id ra = Some rb
   ∧ removed q !! id ra = None)
  ∧ (let q := absorb (absorb p (update prev1 ra)) (remove gone) in
     added q !! id ra = None ∧ updated q !! id ra = None
     ∧ removed q !! id ra = Some gone).
Proof.
  intros Ha Hb Hg. rewrite !absorb_update, absorb_remove.
  unfold handleRemoved, handleUpdated; simpl.
  rewrite Hb, Hg, Ha. simpl. rewrite Ha. simpl.
  by rewrite !lookup_insert_eq, !lookup_delete_eq.
Qed.

Lemma update_then_update_or_remove_witness :
  let r1 := mkRecord "1" "A" in
  let r2 := mkRecord "1" "B" in
  absorb (absorb emptyPending (update r1 r1)) (update r1 r2)
  = mkPending ∅ {[ "1" := r2 ]} ∅
  ∧ removed (absorb (absorb emptyPending (update r1 r1)) (remove r2)) !! "1"
    = Some r2.
Proof.
  intros r1 r2.
  destruct (update_then_update_or_remove emptyPending r1 r2 r2 r1 r1)
    as [_ (_ & _ & Hr)]; [reflexivity | reflexivity | reflexivity |].
  split; [vm_compute; reflexivity | exact Hr].
Defined.

(** X2 — revival.  In an exclusive buffer, a removal followed by an add of
    the same id leaves the new record under [added] and no entry for the id
    under [updated] or [removed]. *)
Theorem remove_then_add_revives p (gone rb : TLRecord) :
  exclusive p → id rb = id gone →
  let q := absorb (absorb p (remove gone)) (add rb) in
  added q !! id gone = Some rb ∧ updated q !! id gone = None
  ∧ removed q !! id gone = None.
Proof. apply remove_then_add_revives_aux. Qed.

Lemma remove_then_add_revives_witness :
  let r := mkRecord "1" "A" in
  absorb (absorb emptyPending (remove r)) (add r) = mkPending {[ "1" := r ]} ∅ ∅
  ∧ added (absorb (absorb emptyPending (remove r)) (add r)) !! "1" = Some r.
Proof.
  intros r.
  destruct (remove_then_add_revives emptyPending r r) as (Ha & _);
    [apply exclusive_empty | reflexivity |].
  split; [vm_compute; reflexivity | exact Ha].
Defined.

(** X3 — a removal is forgotten when the record is revived and removed again
    in the same window.  In an exclusive buffer, removal, add and removal of
    one id leave no entry for it in any of the three dictionaries, although
    the record was there before the window and is gone after it. *)
Theorem remove_add_remove_forgets p (g1 rb g2 : TLRecord) :
  exclusive p → id rb = id g1 → id g2 = id g1 →
  let q := absorb (absorb (absorb p (remove g1)) (add rb)) (remove g2) in
  added q !! id g1 = None ∧ updated q !! id g1 = None
  ∧ removed q !! id g1 = None.
Proof.
  intros He Hb Hg. cbn zeta.
  destruct (remove_then_add_revives_aux p g1 rb He Hb) as (Ha & Hu & Hr).
  rewrite absorb_remove. unfold handleRemoved. rewrite Hg, Ha. simpl.
  by rewrite lookup_delete_eq.
Qed.

Lemma remove_add_remove_forgets_witness :
  let r := mkRecord "1" "A" in
  let q := absorb (absorb (absorb emptyPending (remove r)) (add r)) (remove r) in
  exclusive emptyPending ∧ removed q !! "1" = None ∧ q = emptyPending.
Proof.
  intros r q. split; [apply exclusive_empty|].
  destruct (remove_add_remove_forgets emptyPending r r r) as (_ & _ & Hr);
    [apply exclusive_empty | reflexivity | reflexivity |].
  split; [exact Hr | vm_compute; reflexivity].
Defined.

(** Each handler leaves the entries of other ids alone. *)
Lemma handleAdded_other p r i :
  i ≠ id r →
  added (handleAdded p r) !! i = added p !! i
  ∧ updated (handleAdded p r) !! i = updated p !! i
  ∧ removed (handleAdded p r) !! i = removed p !! i.
Proof.
  intros Hne. unfold handleAdded; simpl.
  by rewrite lookup_insert_ne, lookup_delete_ne.
Qed.

Lemma handleUpdated_other p (ch : TLRecord * option TLRecord) i :
  (∀ next, ch.2 = Some next → i ≠ id next) →
  added (handleUpdated p ch) !! i = added p !! i
  ∧ updated (handleUpdated p ch) !! i = updated p !! i
  ∧ removed (handleUpdated p ch) !! i = removed p !! i.
Proof.
  intros Hne. unfold handleUpdated. destruct ch as [prev [next|]]; simpl; [|done].
  specialize (Hne next eq_refl).
  destruct (added p !! id next); simpl;
    by rewrite ?lookup_insert_ne, ?lookup_delete_ne.
Qed.

Lemma handleRemoved_other p r i :
  i ≠ id r →
  added (handleRemoved p r) !! i = added p !! i
  ∧ updated (handleRemoved p r) !! i = updated p !! i
  ∧ removed (handleRemoved p r) !! i = removed p !! i.
Proof.
  intros Hne. unfold handleRemoved.
  destruct (added p !! id r); simpl;
    by rewrite ?lookup_insert_ne, ?lookup_delete_ne.
Qed.

(** X4 — frame of one absorption.  An id that the notification does not
    mention, as an added record, as the new version of an update or as a
    removed record, keeps its entry, or its absence, in each of the three
    dictionaries. *)
Theorem absorb_leaves_other_ids p c i :
  i ∉ touched c →
  added (absorb p c) !! i = added p !! i
  ∧ updated (absorb p c) !! i = updated p !! i
  ∧ removed (absorb p c) !! i = removed p !! i.
Proof.
  unfold touched, absorb. destruct c as [ad up rm]; simpl.
  rewrite !not_elem_of_app. intros (Had & Hup & Hrm).
  assert (∀ q, added (foldl handleRemoved q rm) !! i = added q !! i
               ∧ updated (foldl handleRemoved q rm) !! i = updated q !! i
               ∧ removed (foldl handleRemoved q rm) !! i = removed q !! i) as H3.
  { clear Had Hup. induction rm as [|r rm IH]; intros q; [done|].
    simpl in *. apply not_elem_of_cons in Hrm as [Hne Hrm].
    destruct (IH Hrm (handleRemoved q r)) as (-> & -> & ->).
    by apply handleRemoved_other. }
  assert (∀ q, added (foldl handleUpdated q up) !! i = added q !! i
               ∧ updated (foldl handleUpdated q up) !! i = updated q !! i
               ∧ removed (foldl handleUpdated q up) !! i = removed q !! i) as H2.
  { clear Had Hrm H3. induction up as [|ch up IH]; intros q; [done|].
    simpl in *.
    assert (∀ next, ch.2 = Some next → i ≠ id next) as Hne.
    { intros next E -> . apply Hup. rewrite E. simpl. apply elem_of_cons. by left. }
    assert (i ∉ omap (λ ch : TLRecord * option TLRecord, id <$> ch.2) up) as Hup'.
    { intros Hin. apply Hup. destruct (id <$> ch.2); [apply elem_of_cons; by right|done]. }
    destruct (IH Hup' (handleUpdated q ch)) as (-> & -> & ->).
    by apply handleUpdated_other. }
  assert (∀ q, added (foldl handleAdded q ad) !! i = added q !! i
               ∧ updated (foldl handleAdded q ad) !! i = updated q !! i
               ∧ removed (foldl handleAdded q ad) !! i = removed q !! i) as H1.
  { clear Hup Hrm H2 H3. induction ad as [|r ad IH]; intros q; [done|].
    simpl in *. apply not_elem_of_cons in Had as [Hne Had].
    destruct (IH Had (handleAdded q r)) as (-> & -> & ->).
    by apply handleAdded_other. }
  destruct (H3 (foldl handleUpdated (foldl handleAdded p ad) up)) as (-> & -> & ->).
  destruct (H2 (foldl handleAdded p ad)) as (-> & -> & ->).
  apply H1.
Qed.

Lemma absorb_leaves_other_ids_witness :
  let a := mkRecord "1" "A" in
  let b := mkRecord "2" "B" in
  added (absorb (absorb emptyPending (add a)) (mkDiff [] [(b, Some b)] [b])) !! "1"
  = Some a.
Proof.
  intros a b.
  destruct (absorb_leaves_other_ids (absorb emptyPending (add a))
              (mkDiff [] [(b, Some b)] [b]) "1") as (-> & _).
  - unfold touched. simpl. rewrite !elem_of_cons, elem_of_nil.
    intros [H|[H|H]]; [discriminate H | discriminate H | exact H].
  - reflexivity.
Defined.

End MoreFoldRules.

(** * Invariants of the board over all runs *)

Section Reachability.
Import DeltaBuffer Board Lifecycle.
Implicit Types (s : State) (c : RecordsDiff) (p : PendingChangeSet)
  (e : Event).

Ltac fields :=
  cbn [flush readOnly doc loading syncStatus heap pendingChanges timeoutRef
       clock flushLog awaiting with_doc].

(** A user edit, whether the board listens or not. *)
Lemma userEdit_frame s c :
  flushLog (userEdit s c) = flushLog s
  ∧ clock (userEdit s c) = clock s
  ∧ awaiting (userEdit s c) = awaiting s
  ∧ pendingChanges (userEdit s c) = pendingChanges s
  ∧ (readOnly s = true →
     heap (userEdit s c) = heap s ∧ timeoutRef (userEdit s c) = timeoutRef s
     ∧ syncStatus (userEdit s c) = syncStatus s)
  ∧ (readOnly s = false →
     heap (userEdit s c)
     = alter (λ p, absorb p c) (pendingChanges s) (heap s)
     ∧ timeoutRef (userEdit s c)
       = Some (mkTimer (clock s + 500) (pendingChanges s))
     ∧ syncStatus (userEdit s c) = syncing).
Proof.
  unfold userEdit, dispatch. fields.
  destruct (readOnly s) eqn:E; split_and!; try done.
Qed.

(** Time passing: either the pending timer is due and its callback runs, or
    only the clock moves. *)
Lemma elapse_cases s (d : nat) :
  (∃ t, timeoutRef s = Some t ∧ deadline t ≤ clock s + d
        ∧ heap (elapse s d) = heap s ++ [emptyPending]
        ∧ pendingChanges (elapse s d) = length (heap s)
        ∧ timeoutRef (elapse s d) = None
        ∧ flushLog (elapse s d)
          = flushLog s
            ++ [mkFlush (deadline t)
                  (default emptyPending (heap s !! captured t))
                  (hasChanges (default emptyPending (heap s !! captured t)))]
        ∧ clock (elapse s d) = clock s + d)
  ∨ ((∀ t, timeoutRef s = Some t → clock s + d < deadline t)
     ∧ heap (elapse s d) = heap s
     ∧ pendingChanges (elapse s d) = pendingChanges s
     ∧ timeoutRef (elapse s d) = timeoutRef s
     ∧ flushLog (elapse s d) = flushLog s
     ∧ awaiting (elapse s d) = awaiting s
     ∧ syncStatus (elapse s d) = syncStatus s
     ∧ clock (elapse s d) = clock s + d).
Proof.
  unfold elapse. destruct (timeoutRef s) as [t|] eqn:E.
  - case_bool_decide as Hd.
    + left. exists t. fields. done.
    + right. fields. rewrite E. split_and!; try done.
      intros t' [= <-]. lia.
  - right. fields. rewrite E. split_and!; done.
Qed.

(** The flush log grows only when a due timer runs, by the snapshot of the
    buffer object the timer holds. *)
Lemma step_flushLog s e :
  flushLog (step s e) = flushLog s
  ∨ ∃ t, timeoutRef s = Some t
         ∧ flushLog (step s e)
           = flushLog s
             ++ [mkFlush (deadline t)
                   (default emptyPending (heap s !! captured t))
                   (hasChanges (default emptyPending (heap s !! captured t)))].
Proof.
  destruct e as [c|records|d|k ok]; cbn [step].
  - left. apply userEdit_frame.
  - left. apply onRecords_frame.
  - destruct (elapse_cases s d) as [(t & E & _ & _ & _ & _ & L & _)|H].
    + right. eauto.
    + left. apply H.
  - left. apply settle_frame.
Qed.

Lemma hasChanges_false_iff p : hasChanges p = false ↔ p = emptyPending.
Proof.
  unfold hasChanges. rewrite !orb_false_iff, !negb_false_iff.
  rewrite !bool_decide_eq_true. destruct p as [a u r]; cbn [added updated removed].
  unfold emptyPending. split.
  - by intros [[-> ->] ->].
  - by intros [= -> -> ->].
Qed.

(** X5 — the push is made exactly for non-empty snapshots.  In every state
    a board can reach, read-only or not, each run of the timer callback
    called [updateWhiteboardShapes] if and only if the snapshot it took had
    an entry in one of the three dictionaries. *)
Theorem push_iff_snapshot_nonempty (ro : bool) (es : list Event) :
  Forall (λ f, f_sent f = true ↔ f_payload f ≠ emptyPending)
         (flushLog (run (init ro) es)).
Proof.
  assert (Forall (λ f, f_sent f = true ↔ f_payload f ≠ emptyPending)
            (flushLog (init ro))) as H by constructor.
  revert H. generalize (init ro).
  induction es as [|e es IH]; intros s H; [done|].
  cbn [run foldl]. apply IH.
  destruct (step_flushLog s e) as [-> | (t & _ & ->)]; [done|].
  apply Forall_app. split; [done|].
  constructor; [|constructor]. cbn [f_sent f_payload].
  rewrite <- hasChanges_false_iff.
  by destruct (hasChanges _).
Qed.

Lemma spaced_snoc (gap x : nat) (ts : list nat) :
  spaced gap ts → Forall (λ a, a + gap ≤ x) ts → spaced gap (ts ++ [x]).
Proof.
  induction ts as [|a [|b rest] IH]; intros Hs Hf.
  - done.
  - simpl. split; [|done]. by inversion Hf.
  - destruct Hs as [Hab Hs]. inversion Hf as [|? ? Ha Hf']; subst.
    split; [done|]. by apply IH.
Qed.

Lemma paced_step s e : paced s → paced (step s e).
Proof.
  intros (Hs & Hc & Ht). unfold paced, flushTimes in *.
  destruct e as [c|records|d|k ok]; cbn [step].
  - destruct (userEdit_frame s c) as (-> & -> & _ & _ & Hro & Hrw).
    split_and!; [done | done |].
    destruct (readOnly s) eqn:E.
    + destruct (Hro eq_refl) as (_ & -> & _). done.
    + destruct (Hrw eq_refl) as (_ & -> & _). intros t [= <-]. simpl.
      eapply Forall_impl; [exact Hc|]. simpl. intros a Ha. lia.
  - destruct (onRecords_frame s records) as (_ & _ & -> & -> & _ & _ & ->).
    done.
  - destruct (elapse_cases s d)
      as [(t & E & Hd & _ & _ & -> & -> & ->)
         |(Hnd & _ & _ & -> & -> & _ & _ & ->)].
    + rewrite fmap_app. simpl. split_and!.
      * apply spaced_snoc; [done|]. by apply Ht.
      * apply Forall_app. split.
        -- eapply Forall_impl; [exact Hc|]. simpl. intros a Ha. lia.
        -- by repeat constructor.
      * intros ? [=].
    + split_and!; [done | | done].
      eapply Forall_impl; [exact Hc|]. simpl. intros a Ha. lia.
  - destruct (settle_frame s k ok) as (_ & _ & -> & -> & -> & _).
    done.
Qed.

(** X6 — the flush rate.  In every state a board can reach, two successive
    runs of the timer callback are at least 500 ms apart. *)
Theorem flushes_500_apart (ro : bool) (es : list Event) :
  spaced 500 (flushTimes (run (init ro) es)).
Proof.
  cut (paced (run (init ro) es)); [by intros [? _]|].
  assert (paced (init ro)) as H.
  { split_and!; [done | constructor | intros t [=]]. }
  revert H. generalize (init ro).
  induction es as [|e es IH]; intros s H; [done|].
  cbn [run foldl]. apply IH. by apply paced_step.
Qed.

(** X7 — the timer and the buffer stay together.  In every state a board can
    reach, the buffer pointer names an existing object, and a pending
    timer's closure holds that very object and is not overdue. *)
Theorem timer_holds_current_buffer (ro : bool) (es : list Event) :
  let s := run (init ro) es in
  is_Some (heap s !! pendingChanges s)
  ∧ ∀ t, timeoutRef s = Some t →
         captured t = pendingChanges s ∧ clock s ≤ deadline t.
Proof.
  cbn zeta. destruct (wf_run (init ro) es (wf_init ro)) as [Hb Ht].
  split; [by apply lookup_lt_is_Some | exact Ht].
Qed.

Lemma timer_holds_current_buffer_witness :
  let r := mkRecord "1" "A" in
  let s := run (init false) [Local (add r); Elapse 500; Local (add r)] in
  ∃ t, timeoutRef s = Some t ∧ captured t = pendingChanges s
       ∧ pendingChanges s = 1.
Proof.
  intros r s. exists (mkTimer 1000 1).
  destruct (timer_holds_current_buffer false
              [Local (add r); Elapse 500; Local (add r)]) as [_ H].
  split; [reflexivity|]. split; [|reflexivity].
  exact (proj1 (H (mkTimer 1000 1) eq_refl)).
Defined.

(** X8 — a read-only board is silent.  Whatever happens to a board mounted
    read-only, no timer is ever pending, the timer callback never runs, the
    buffer stays empty and the status stays [synced]. *)
Theorem read_only_board_is_silent (es : list Event) :
  let s := run (init true) es in
  timeoutRef s = None ∧ flushLog s = [] ∧ buffer s = emptyPending
  ∧ awaiting s = [] ∧ syncStatus s = synced.
Proof.
  cbn zeta.
  cut (let s := run (init true) es in
       readOnly s = true ∧ timeoutRef s = None ∧ flushLog s = []
       ∧ heap s = [emptyPending] ∧ pendingChanges s = 0
       ∧ awaiting s = [] ∧ syncStatus s = synced).
  { cbn zeta. intros (_ & ? & ? & Hh & Hp & ? & ?). unfold buffer.
    rewrite Hh, Hp. done. }
  assert (readOnly (init true) = true ∧ timeoutRef (init true) = None
          ∧ flushLog (init true) = [] ∧ heap (init true) = [emptyPending]
          ∧ pendingChanges (init true) = 0 ∧ awaiting (init true) = []
          ∧ syncStatus (init true) = synced) as H by done.
  revert H. generalize (init true).
  induction es as [|e es IH]; intros s H; [done|].
  cbn [run foldl]. apply IH. clear IH.
  destruct H as (Hro & Ht & Hl & Hh & Hp & Ha & Hs).
  rewrite readOnly_step. split; [done|].
  destruct e as [c|records|d|k ok]; cbn [step].
  - destruct (userEdit_frame s c) as (-> & _ & -> & -> & Hr & _).
    destruct (Hr Hro) as (-> & -> & ->). done.
  - destruct (onRecords_frame s records) as (-> & -> & -> & -> & -> & -> & _).
    done.
  - destruct (elapse_cases s d)
      as [(t & E & _)|(_ & -> & -> & -> & -> & -> & -> & _)]; [congruence|done].
  - unfold settle. rewrite Ha, bool_decide_eq_false_2; [done|].
    apply not_elem_of_nil.
Qed.

Lemma doc_userEdit s c : doc (userEdit s c) = store_apply (doc s) c.
Proof. unfold userEdit, dispatch. fields. by destruct (readOnly s) eqn:E. Qed.

Lemma doc_elapse s (d : nat) : doc (elapse s d) = doc s.
Proof.
  unfold elapse. destruct (timeoutRef s); [case_bool_decide|]; done.
Qed.

(** What the timer callback does to the status and the suspended pushes. *)
Lemma elapse_due_status s t (d : nat) :
  wf s → timeoutRef s = Some t → deadline t ≤ clock s + d →
  syncStatus (elapse s d)
  = (if hasChanges (buffer s) then syncStatus s else synced)
  ∧ awaiting (elapse s d)
    = (if hasChanges (buffer s) then awaiting s ++ [length (flushLog s)]
       else awaiting s).
Proof.
  intros [Hb Ht] E Hd. destruct (Ht t E) as [Hc _].
  destruct (elapse_fires s t d E Hd) as (_ & _ & _ & _ & -> & -> & _).
  unfold flush, buffer. fields. by rewrite Hc.
Qed.

(** X9 — an add undone within the window sends nothing.  On a fresh
    writable board, a record added and removed again less than 500 ms later
    never reaches [updateWhiteboardShapes], however long one waits; the
    store no longer holds it, and once the timer has run the status is
    [synced] and no timer is pending. *)
Theorem add_then_remove_sends_nothing (r gone : TLRecord) (a w : nat) :
  a < 500 → id gone = id r →
  let s := run (init false)
             [Local (add r); Elapse a; Local (remove gone); Elapse w] in
  outbound s = [] ∧ doc s !! id r = None
  ∧ (500 ≤ w → syncStatus s = synced ∧ timeoutRef s = None
               ∧ length (flushLog s) = 1).
Proof.
  intros Ha Hg. cbn zeta.
  change (run (init false)
            [Local (add r); Elapse a; Local (remove gone); Elapse w])
    with (elapse (userEdit (elapse (userEdit (init false) (add r)) a)
                    (remove gone)) w).
  destruct (userEdit_effect (init false) (add r) (wf_init false) eq_refl)
    as (W1 & R1 & B1 & L1 & A1 & T1 & C1 & _).
  set (s1 := userEdit (init false) (add r)) in *.
  destruct (elapse_cases s1 a)
    as [(t & E & Hd & _)|(_ & H2 & P2 & T2 & L2 & A2 & _ & C2)].
  { rewrite T1 in E. injection E as <-. cbn [deadline] in Hd.
    rewrite C1 in Hd. cbn [init clock] in Hd. lia. }
  pose proof (wf_elapse s1 a W1) as W2.
  assert (readOnly (elapse s1 a) = false) as R2
    by (etrans; [exact (readOnly_step s1 (Elapse a)) | exact R1]).
  assert (buffer (elapse s1 a) = absorb emptyPending (add r)) as B2
    by (unfold buffer in *; rewrite H2, P2; exact B1).
  set (s2 := elapse s1 a) in *.
  destruct (userEdit_effect s2 (remove gone) W2 R2)
    as (W3 & R3 & B3 & L3 & A3 & T3 & C3 & _).
  rewrite B2 in B3.
  rewrite (proj1 (add_then_remove_from_empty r r gone r Hg eq_refl)) in B3.
  set (s3 := userEdit s2 (remove gone)) in *.
  assert (doc (elapse s3 w) !! id r = None) as Hdoc.
  { rewrite doc_elapse. subst s3. rewrite doc_userEdit. subst s2.
    rewrite doc_elapse. subst s1. rewrite doc_userEdit.
    unfold store_apply, remove, add. cbn [chg_added chg_updated chg_removed
      foldl store_put init doc]. rewrite Hg. apply lookup_delete_eq. }
  destruct (decide (500 ≤ w)) as [Hw|Hw].
  - destruct (elapse_due s3 _ w W3 T3) as (_ & _ & _ & L4 & T4 & _);
      [simpl; lia|].
    destruct (elapse_due_status s3 _ w W3 T3) as [S4 _]; [simpl; lia|].
    rewrite B3 in L4, S4.
    assert (hasChanges emptyPending = false) as He
      by (by apply hasChanges_false_iff).
    rewrite He in L4, S4. split_and!.
    + unfold outbound. by rewrite L4, L3, L2, L1.
    + exact Hdoc.
    + intros _. by rewrite S4, T4, L4, L3, L2, L1.
  - destruct (elapse_waits s3 _ w T3) as (L4 & _); [cbn [deadline]; lia|].
    split_and!.
    + unfold outbound. by rewrite L4, L3, L2, L1.
    + exact Hdoc.
    + intros Hw'. lia.
Qed.

Lemma add_then_remove_sends_nothing_witness :
  let r := mkRecord "shape:r1" "v" in
  outbound (run (init false)
              [Local (add r); Elapse 300; Local (remove r); Elapse 3000]) = []
  ∧ syncStatus (run (init false)
              [Local (add r); Elapse 300; Local (remove r); Elapse 3000])
    = synced.
Proof.
  intros r.
  destruct (add_then_remove_sends_nothing r r 300 3000) as (Ho & _ & Hs);
    [lia | reflexivity |].
  split; [exact Ho|]. apply Hs. lia.
Defined.

(** X10 — what the cleanup leaves behind.  After the listener effect's
    cleanup no flush happens however long one waits, and the edits in the
    buffer stay there unsent; when the effect runs again on a writable
    board, the flush of the next edit carries the left-over edits folded
    with it. *)
Theorem cleanup_keeps_edits_unsent s c :
  wf s → readOnly s = false →
  (∀ w : nat, flushLog (elapse (cleanup s) w) = flushLog s
              ∧ buffer (elapse (cleanup s) w) = buffer s)
  ∧ flushLog (elapse (userEdit (cleanup s) c) 500)
    = flushLog s
      ++ [mkFlush (clock s + 500) (absorb (buffer s) c)
            (hasChanges (absorb (buffer s) c))].
Proof.
  intros Hwf Hro.
  assert (wf (cleanup s)) as W1.
  { destruct Hwf as [Hb _]. split; [exact Hb | intros t [=]]. }
  split.
  - intros w. destruct (elapse_quiet (cleanup s) w W1 eq_refl)
      as (_ & _ & -> & -> & _). done.
  - destruct (userEdit_effect (cleanup s) c W1 Hro)
      as (W2 & _ & B2 & L2 & _ & T2 & C2 & _).
    destruct (elapse_due _ _ 500 W2 T2) as (_ & _ & _ & -> & _);
      [cbn [deadline]; lia|].
    rewrite L2, B2. done.
Qed.

Lemma cleanup_keeps_edits_unsent_witness :
  let c := add (mkRecord "2" "B") in
  wf one_edit
  ∧ flushLog (elapse (cleanup one_edit) 4000) = []
  ∧ f_payload <$> flushLog (elapse (userEdit (cleanup one_edit) c) 500)
    = [absorb (absorb emptyPending (add (mkRecord "1" "A"))) c].
Proof.
  intros c.
  destruct (cleanup_keeps_edits_unsent one_edit c one_edit_wf eq_refl)
    as [Hq Hl].
  split; [exact one_edit_wf|]. split.
  - exact (proj1 (Hq 4000)).
  - etrans; [exact (f_equal (fmap f_payload) Hl)|]. vm_compute. reflexivity.
Defined.

(** X11 — the status follows the push that settled last.  When an edit is
    absorbed while a push is in flight and that push then resolves, the
    status becomes [synced] although the new edit is still in the buffer,
    unsent, with its timer pending. *)
Theorem status_synced_with_edits_pending s t c :
  wf s → readOnly s = false → timeoutRef s = Some t →
  hasChanges (buffer s) = true →
  let k := length (flushLog s) in
  let s2 := userEdit (elapse s (deadline t - clock s)) c in
  let s3 := settle s2 k true in
  syncStatus s2 = syncing
  ∧ syncStatus s3 = synced
  ∧ buffer s3 = absorb emptyPending c
  ∧ timeoutRef s3 = Some (mkTimer (deadline t + 500) (pendingChanges s3))
  ∧ outbound s3 = outbound s ++ [mkFlush (deadline t) (buffer s) true].
Proof.
  intros Hwf Hro Ht Hsent. cbn zeta.
  assert (clock s ≤ deadline t) as Hck by (destruct Hwf as [_ H]; by apply H).
  destruct (elapse_due s t (deadline t - clock s) Hwf Ht)
    as (W1 & R1 & B1 & L1 & T1 & C1); [lia|].
  pose proof (elapse_due_awaiting s t (deadline t - clock s) Hwf Ht) as A1.
  rewrite Hsent in L1.
  set (s1 := elapse s (deadline t - clock s)) in *.
  destruct (userEdit_effect s1 c W1)
    as (W2 & R2 & B2 & L2 & A2 & T2 & C2 & S2); [congruence|].
  set (s2 := userEdit s1 c) in *.
  set (k := length (flushLog s)) in *.
  assert (k ∈ awaiting s2) as Hk.
  { rewrite A2, A1 by (done || lia). apply elem_of_app. right.
    by apply list_elem_of_singleton. }
  destruct (settle_status s2 k true Hk) as [S3 _].
  destruct (settle_frame s2 k true) as (F1 & F2 & F3 & F4 & _).
  destruct (settle_effect s2 k true W2) as (_ & _ & B3 & _).
  split_and!; [done | done | congruence | | ].
  - rewrite F3, T2, F2. f_equal. f_equal. lia.
  - unfold outbound. rewrite F4, L2, L1, filter_app. done.
Qed.

Lemma status_synced_with_edits_pending_witness :
  let c := add (mkRecord "2" "B") in
  let s3 := settle (userEdit (elapse one_edit 500) c) 0 true in
  wf one_edit ∧ hasChanges (buffer one_edit) = true
  ∧ syncStatus s3 = synced ∧ buffer s3 = absorb emptyPending c.
Proof.
  intros c s3.
  destruct (status_synced_with_edits_pending one_edit (mkTimer 500 0) c)
    as (_ & Hs & Hb & _);
    [exact one_edit_wf | reflexivity | reflexivity | vm_compute; reflexivity |].
  split; [exact one_edit_wf|]. split; [vm_compute; reflexivity|].
  split; [exact Hs | exact Hb].
Defined.

End Reachability.

(** * The buffer against the store *)

Section BufferAndStore.
Import DeltaBuffer Board Lifecycle.
Implicit Types (s : State) (c : RecordsDiff) (p : PendingChangeSet)
  (d : gmap string TLRecord) (r : TLRecord).

(** X12 — inbound batches compose and repeat harmlessly.  Handling two
    batches one after the other leaves the store as writing the records of
    both, in order, does; handling the same batch a second time changes
    nothing in the store. *)
Theorem inbound_batches_compose s (a b : list TLRecord) :
  doc (onRecords (onRecords s a) b) = store_put (doc s) (a ++ b)
  ∧ doc (onRecords (onRecords s a) a) = doc (onRecords s a).
Proof.
  rewrite !doc_onRecords. split.
  - unfold store_put. by rewrite foldl_app.
  - rewrite !store_put_union. by rewrite (assoc_L (∪)), (idemp_L (∪)).
Qed.

Lemma in_step_handleAdded d p r :
  updated p !! id r = None → in_step d p →
  in_step (<[id r := r]> d) (handleAdded p r).
Proof.
  intros Hu (Ha & Hup & Hr). unfold handleAdded. split_and!; simpl.
  - intros i r'. destruct (decide (id r = i)) as [<-|Hne].
    + by rewrite !lookup_insert_eq.
    + rewrite !lookup_insert_ne by done. apply Ha.
  - intros i r' Hi. destruct (decide (id r = i)) as [<-|Hne]; [congruence|].
    rewrite lookup_insert_ne by done. by apply Hup.
  - intros i Hi. destruct (decide (id r = i)) as [<-|Hne].
    + rewrite lookup_delete_eq in Hi. by destruct Hi.
    + rewrite lookup_delete_ne in Hi by done.
      rewrite lookup_insert_ne by done. by apply Hr.
Qed.

Lemma in_step_added d p (rs : list TLRecord) :
  Forall (λ r, updated p !! id r = None) rs → in_step d p →
  in_step (store_put d rs) (foldl handleAdded p rs).
Proof.
  revert d p. induction rs as [|r rs IH]; intros d p Hf Hs; [done|].
  inversion Hf as [|? ? Hr Hrest]; subst. simpl. apply IH; [done|].
  by apply in_step_handleAdded.
Qed.

Lemma in_step_handleUpdated d p (ch : TLRecord * option TLRecord) :
  exclusive p → in_step d p →
  in_step (match ch.2 with Some next => <[id next := next]> d | None => d end)
          (handleUpdated p ch).
Proof.
  intros He (Ha & Hup & Hr). unfold handleUpdated.
  destruct ch as [prev [next|]]; simpl; [|done].
  pose proof (proj1 (exclusive_lookup p) He (id next)) as (H1 & H2 & H3).
  destruct (added p !! id next) as [old|] eqn:E; split_and!; simpl.
  - intros i r'. destruct (decide (id next = i)) as [<-|Hne].
    + by rewrite !lookup_insert_eq.
    + rewrite !lookup_insert_ne by done. apply Ha.
  - intros i r' Hi. destruct (decide (id next = i)) as [<-|Hne].
    + destruct H1; congruence.
    + rewrite lookup_insert_ne by done. by apply Hup.
  - intros i Hi. destruct (decide (id next = i)) as [<-|Hne].
    + destruct H2 as [H2|H2]; [congruence|]. rewrite H2 in Hi. by destruct Hi.
    + rewrite lookup_insert_ne by done. by apply Hr.
  - intros i r' Hi. destruct (decide (id next = i)) as [<-|Hne]; [congruence|].
    rewrite lookup_insert_ne by done. by apply Ha.
  - intros i r'. destruct (decide (id next = i)) as [<-|Hne].
    + by rewrite !lookup_insert_eq.
    + rewrite !lookup_insert_ne by done. apply Hup.
  - intros i Hi. destruct (decide (id next = i)) as [<-|Hne].
    + rewrite lookup_delete_eq in Hi. by destruct Hi.
    + rewrite lookup_delete_ne in Hi by done.
      rewrite lookup_insert_ne by done. by apply Hr.
Qed.

Lemma in_step_handleRemoved d p r :
  exclusive p → in_step d p →
  in_step (delete (id r) d) (handleRemoved p r).
Proof.
  intros He (Ha & Hup & Hr). unfold handleRemoved.
  pose proof (proj1 (exclusive_lookup p) He (id r)) as (H1 & H2 & H3).
  destruct (added p !! id r) as [old|] eqn:E; split_and!; simpl.
  - intros i r' Hi. destruct (decide (id r = i)) as [<-|Hne].
    + by rewrite lookup_delete_eq in Hi.
    + rewrite lookup_delete_ne in Hi by done.
      rewrite lookup_delete_ne by done. by apply Ha.
  - intros i r' Hi. destruct (decide (id r = i)) as [<-|Hne].
    + destruct H1; congruence.
    + rewrite lookup_delete_ne by done. by apply Hup.
  - intros i Hi. destruct (decide (id r = i)) as [<-|Hne].
    + apply lookup_delete_eq.
    + rewrite lookup_delete_ne by done. by apply Hr.
  - intros i r' Hi. destruct (decide (id r = i)) as [<-|Hne]; [congruence|].
    rewrite lookup_delete_ne by done. by apply Ha.
  - intros i r' Hi. destruct (decide (id r = i)) as [<-|Hne].
    + by rewrite lookup_delete_eq in Hi.
    + rewrite lookup_delete_ne in Hi by done.
      rewrite lookup_delete_ne by done. by apply Hup.
  - intros i Hi. destruct (decide (id r = i)) as [<-|Hne].
    + apply lookup_delete_eq.
    + rewrite lookup_insert_ne in Hi by done.
      rewrite lookup_delete_ne by done. by apply Hr.
Qed.

(** One consistent user edit keeps the buffer's records those of the
    store. *)
Lemma in_step_absorb d p c :
  store_consistent d c → tracked d p → in_step d p →
  tracked (store_apply d c) (absorb p c)
  ∧ in_step (store_apply d c) (absorb p c).
Proof.
  intros Hc Ht Hs. unfold store_apply, absorb.
  assert (Forall (λ r, updated p !! id r = None) (chg_added c)) as Hf.
  { eapply Forall_impl; [exact Hc|]. intros r Hr. simpl in Hr.
    destruct Ht as [_ Hd]. destruct (updated p !! id r) eqn:E; [|done].
    destruct (Hd (id r)) as [v Hv]; [eauto | congruence]. }
  pose proof (tracked_added d p _ Hf Ht) as T1.
  pose proof (in_step_added d p _ Hf Hs) as S1.
  revert T1 S1.
  generalize (store_put d (chg_added c)) (foldl handleAdded p (chg_added c)).
  intros d1 p1 T1 S1.
  assert (tracked
            (foldl (λ m ch, match ch.2 with
                            | Some next => <[id next := next]> m
                            | None => m
                            end) d1 (chg_updated c))
            (foldl handleUpdated p1 (chg_updated c))
          ∧ in_step
              (foldl (λ m ch, match ch.2 with
                              | Some next => <[id next := next]> m
                              | None => m
                              end) d1 (chg_updated c))
              (foldl handleUpdated p1 (chg_updated c))) as [T2 S2].
  { revert d1 p1 T1 S1. induction (chg_updated c) as [|ch l IH];
      intros d1 p1 T1 S1; [done|].
    simpl. apply IH; [by apply tracked_updated|].
    apply in_step_handleUpdated; [apply T1 | done]. }
  revert T2 S2.
  generalize (foldl (λ m ch, match ch.2 with
                             | Some next => <[id next := next]> m
                             | None => m
                             end) d1 (chg_updated c))
             (foldl handleUpdated p1 (chg_updated c)).
  clear. intros d2 p2. revert d2 p2.
  induction (chg_removed c) as [|r l IH]; intros d2 p2 T2 S2; [done|].
  simpl. apply IH; [by apply tracked_removed|].
  apply in_step_handleRemoved; [apply T2 | done].
Qed.

Lemma in_step_empty d : in_step d emptyPending.
Proof.
  split_and!; simpl; intros i; rewrite lookup_empty; [done | done |].
  intros H. by destruct H.
Qed.

(** X13 — the buffer holds the store's current versions.  On a writable
    board that sees user edits the store can report, passing time and push
    results, but no inbound batch, a record the buffer lists as added or
    updated is the one the store holds under that id now, and an id the
    buffer lists as removed is absent from the store. *)
Theorem buffer_holds_current_versions (es : list Event) :
  admissible_run (init false) es → local_only es →
  in_step (doc (run (init false) es)) (buffer (run (init false) es)).
Proof.
  intros Ha Hl.
  pose proof (wf_init false) as Hwf.
  assert (readOnly (init false) = false) as Hro by done.
  assert (tracked (doc (init false)) (buffer (init false))) as Ht
    by apply tracked_empty.
  assert (in_step (doc (init false)) (buffer (init false))) as Hs
    by apply in_step_empty.
  revert Ha Hl Hwf Hro Ht Hs. generalize (init false).
  induction es as [|e es IH]; intros s Ha Hl Hwf Hro Ht Hs; [done|].
  destruct Ha as [He Hes]. inversion Hl as [|? ? Hne Hl']; subst.
  cbn [run foldl]. apply IH; [done | done | | | |].
  - by apply wf_step.
  - by rewrite readOnly_step.
  - by apply tracked_step.
  - destruct e as [c|records|w|k ok]; cbn [step admissible] in *.
    + destruct (userEdit_effect s c Hwf Hro) as (_ & _ & -> & _).
      rewrite doc_userEdit. by apply in_step_absorb.
    + discriminate Hne.
    + rewrite doc_elapse.
      destruct (timeoutRef s) as [t|] eqn:E.
      * destruct (decide (deadline t ≤ clock s + w)) as [Hd|Hd].
        -- destruct (elapse_due s t w Hwf E Hd) as (_ & _ & -> & _).
           apply in_step_empty.
        -- destruct (elapse_waits s t w E) as (_ & F2 & F3 & _); [lia|].
           unfold buffer in *. by rewrite F2, F3.
      * destruct (elapse_quiet s w Hwf E) as (_ & _ & -> & _). done.
    + destruct (settle_effect s k ok Hwf) as (_ & _ & -> & _).
      by destruct (settle_frame s k ok) as (_ & _ & _ & _ & _ & _ & ->).
Qed.

Lemma buffer_holds_current_versions_witness :
  let r1 := mkRecord "1" "A" in
  let r2 := mkRecord "1" "B" in
  let s := run (init false) [Local (add r1); Elapse 100; Local (update r1 r2)] in
  added (buffer s) !! "1" = Some r2 ∧ doc s !! "1" = Some r2.
Proof.
  intros r1 r2 s.
  assert (added (buffer s) !! "1" = Some r2) as Hb by (vm_compute; reflexivity).
  split; [exact Hb|].
  destruct (buffer_holds_current_versions
              [Local (add r1); Elapse 100; Local (update r1 r2)])
    as (Ha & _).
  - simpl; repeat split; repeat constructor.
  - repeat constructor.
  - exact (Ha "1" r2 Hb).
Defined.

(** X14 — what is pushed respects the delta invariant.  On a writable
    board, under user edits the store can report and any interleaving of
    inbound batches, passing time and push results, every snapshot the
    timer callback ever took, and so every delta pushed, has each id in at
    most one of its three dictionaries. *)
Theorem snapshots_exclusive (es : list Event) :
  admissible_run (init false) es →
  Forall (λ f, exclusive (f_payload f)) (flushLog (run (init false) es)).
Proof.
  intros Ha.
  pose proof (wf_init false) as Hwf.
  assert (readOnly (init false) = false) as Hro by done.
  assert (tracked (doc (init false)) (buffer (init false))) as Ht
    by apply tracked_empty.
  assert (Forall (λ f, exclusive (f_payload f)) (flushLog (init false)))
    as Hl by constructor.
  revert Ha Hwf Hro Ht Hl. generalize (init false).
  induction es as [|e es IH]; intros s Ha Hwf Hro Ht Hl; [done|].
  destruct Ha as [He Hes]. cbn [run foldl]. apply IH; [done | | | |].
  - by apply wf_step.
  - by rewrite readOnly_step.
  - by apply tracked_step.
  - destruct (step_flushLog s e) as [-> | (t & E & ->)]; [done|].
    apply Forall_app. split; [done|]. constructor; [|constructor].
    cbn [f_payload]. destruct Hwf as [_ Hc]. destruct (Hc t E) as [-> _].
    apply Ht.
Qed.

Lemma snapshots_exclusive_witness :
  let r := mkRecord "1" "A" in
  Forall (λ f, exclusive (f_payload f))
    (flushLog (run (init false)
                 [Local (add r); Elapse 500; Inbound [r];
                  Local (update r r); Local (remove r); Elapse 500])).
Proof.
  intros r. apply snapshots_exclusive.
  simpl; repeat split; repeat constructor.
Defined.

End BufferAndStore.

(** * Further properties of the presence channel *)

Section MorePresence.
Import Presence Cursors.
Implicit Types (viewer user : User) (u : PresenceRecord) (k : nat).

(** The two outcomes of one tick. *)
Lemma broadcast_inv (now last : Z) user (name : option string) (pt : Point) :
  (∃ upd, broadcast now last user name pt = (Some upd, now)
          ∧ (last + 100 <= now)%Z
          ∧ pu_x upd = Math_round (px pt) ∧ pu_y upd = Math_round (py pt)
          ∧ Number_isNaN (px pt) = false ∧ Number_isNaN (py pt) = false)
  ∨ broadcast now last user name pt = (None, last).
Proof.
  unfold broadcast, THROTTLE. case_bool_decide as Hd; [by right|].
  destruct (Number_isNaN (px pt)) eqn:Ex; [by right|].
  destruct (Number_isNaN (py pt)) eqn:Ey; [by right|].
  left. eexists. simpl. split_and!; try done. lia.
Qed.

Lemma Math_round_not_NaN (v : JSNumber) :
  Number_isNaN v = false → Number_isNaN (Math_round v) = false.
Proof. by destruct v. Qed.

(** X15 — the publish throttle.  Whatever the moments at which the interval
    callback runs and whatever the pointer positions it reads, two
    successive calls of [updatePresence] are at least 100 ms apart, the
    first one at least 100 ms after the initial [lastBroadcastRef], and no
    call ever carries a NaN coordinate. *)
Theorem publishes_throttled (last : Z) user (name : option string)
    (ticks : list (Z * Point)) :
  throttled 100 last (fst <$> broadcastLoop last user name ticks)
  ∧ Forall (λ call, Number_isNaN (pu_x call.2) = false
                    ∧ Number_isNaN (pu_y call.2) = false)
           (broadcastLoop last user name ticks).
Proof.
  revert last. induction ticks as [|[now pt] ticks IH]; intros last.
  - split; [done | constructor].
  - cbn [broadcastLoop].
    destruct (broadcast_inv now last user name pt)
      as [(upd & -> & Hd & Hx & Hy & Nx & Ny) | ->].
    + destruct (IH now) as [Ht Hf]. split.
      * cbn [fmap list_fmap fst throttled]. split; [lia | exact Ht].
      * constructor; [|exact Hf]. cbn [snd]. rewrite Hx, Hy.
        split; by apply Math_round_not_NaN.
    + apply IH.
Qed.

Lemma local_part_prefix (s : string) :
  ("@"%char ∉ chars (local_part s))
  ∧ ∃ rest, s = (local_part s ++ rest)%string.
Proof.
  induction s as [|c s [IH1 [rest IH2]]]; simpl.
  - split; [apply not_elem_of_nil | by exists ""%string].
  - destruct (Ascii.eqb c "@") eqn:E; simpl.
    + split; [apply not_elem_of_nil | by eexists].
    + split.
      * apply not_elem_of_cons. split; [|done].
        intros <-. by rewrite Ascii.eqb_refl in E.
      * exists rest.
        change (String c s = String c (local_part s ++ rest)%string).
        f_equal. exact IH2.
Qed.

Lemma or_else_nonempty (a : option string) (b : string) :
  b ≠ ""%string → or_else a b ≠ ""%string.
Proof.
  intros Hb. unfold or_else. destruct a as [s|]; [|done].
  destruct (String.eqb s "") eqn:E; [done|]. by apply String.eqb_neq in E.
Qed.

(** X16 — the published display name.  The name is never empty: it is the
    profile name when there is a non-empty one, otherwise the part of the
    e-mail address before the first [@] when that part is non-empty, and
    otherwise ["Anon"]; the part taken from an address contains no [@] and
    is a prefix of the address. *)
Theorem display_name_fallback (name : option string) user :
  displayName name user ≠ ""%string
  ∧ (∀ n, name = Some n → n ≠ ""%string → displayName name user = n)
  ∧ (name = None ∨ name = Some ""%string →
     ∀ e, email user = Some e → local_part e ≠ ""%string →
          displayName name user = local_part e)
  ∧ (name = None ∨ name = Some ""%string →
     email user = None ∨ (∃ e, email user = Some e ∧ local_part e = ""%string) →
     displayName name user = "Anon"%string)
  ∧ (∀ e, ("@"%char ∉ chars (local_part e))
          ∧ ∃ rest, e = (local_part e ++ rest)%string).
Proof.
  unfold displayName. split_and!.
  - apply or_else_nonempty, or_else_nonempty. done.
  - intros n -> Hn. unfold or_else at 1.
    apply String.eqb_neq in Hn. by rewrite Hn.
  - intros Hname e He Hl.
    assert (or_else name (or_else (local_part <$> email user) "Anon")
            = or_else (local_part <$> email user) "Anon") as ->
      by (by destruct Hname as [-> | ->]).
    rewrite He. simpl. apply String.eqb_neq in Hl. by rewrite Hl.
  - intros Hname He.
    assert (or_else name (or_else (local_part <$> email user) "Anon")
            = or_else (local_part <$> email user) "Anon") as ->
      by (by destruct Hname as [-> | ->]).
    destruct He as [-> | (e & -> & Hl)]; [done|]. simpl. by rewrite Hl.
  - apply local_part_prefix.
Qed.

Lemma display_name_fallback_witness :
  displayName (Some ""%string) (mkUser "u1" (Some "ann@example.org"%string))
  = "ann"%string
  ∧ displayName None (mkUser "u1" (Some "@example.org"%string)) = "Anon"%string.
Proof.
  split.
  - destruct (display_name_fallback (Some ""%string)
                (mkUser "u1" (Some "ann@example.org"%string)))
      as (_ & _ & H & _).
    apply (H (or_intror eq_refl) "ann@example.org"%string eq_refl).
    discriminate.
  - destruct (display_name_fallback None
                (mkUser "u1" (Some "@example.org"%string)))
      as (_ & _ & _ & H & _).
    apply (H (or_introl eq_refl)). right. by exists "@example.org"%string.
Defined.

Lemma filterM_sound (pred : PresenceRecord → Clocked bool)
    (users shown : list PresenceRecord) (clock : nat → Z) k k' :
  filterM pred users clock k = Returned (shown, k') →
  sublist shown users
  ∧ Forall (λ u, ∃ k1 k2, pred u clock k1 = Returned (true, k2)) shown.
Proof.
  revert shown k k'. induction users as [|u users IH]; intros shown k k'.
  - intros [= <- <-]. split; constructor.
  - simpl. unfold bind.
    destruct (pred u clock k) as [[keep k1]|] eqn:E1; [|done].
    destruct (filterM pred users clock k1) as [[tail k2]|] eqn:E2; [|done].
    destruct (IH tail k1 k2 E2) as [Hs Hf].
    intros [= <- <-]. destruct keep.
    + split; [by constructor|]. constructor; [eauto | done].
    + split; [by constructor | done].
Qed.

(** X17 — the viewer's own cursor is never shown.  Whatever the clock
    returns from one read to the next, when the subscriber's callback
    returns for a signed-in viewer, the list it displays is a sub-list of
    the received one, in the same order, and holds no record with the
    viewer's own id. *)
Theorem own_record_never_displayed viewer (old users shown : list PresenceRecord)
    (clock : nat → Z) k k' :
  onPresence (Some viewer) old users clock k = Returned (shown, k') →
  sublist shown users ∧ Forall (λ u, userId u ≠ uid viewer) shown.
Proof.
  cbn [onPresence]. intros H.
  destruct (filterM_sound _ _ _ _ _ _ H) as [Hs Hf]. split; [done|].
  eapply Forall_impl; [exact Hf|]. simpl.
  intros u (k1 & k2 & E) Heq.
  rewrite isActive_self in E by done. discriminate E.
Qed.

Lemma own_record_never_displayed_witness :
  let viewer := mkUser "me" None in
  let rec who := mkPresence who who "#3b82f6" (Finite 0) (Finite 0) Nullish in
  ∃ shown k',
    onPresence (Some viewer) [] [rec "me"; rec "bob"] (λ n, Z.of_nat n) 0
    = Returned (shown, k')
    ∧ Forall (λ u, userId u ≠ uid viewer) shown.
Proof.
  intros viewer rec. exists [rec "bob"], 2. split; [reflexivity|].
  apply (own_record_never_displayed viewer [] [rec "me"; rec "bob"]
           [rec "bob"] (λ n, Z.of_nat n) 0 2 eq_refl).
Defined.

(** X18 — a timestamp that is not an object never expires.  For a record of
    another user whose [lastActive] is missing, null or a plain number,
    however old the number, the filter keeps the record as long as the two
    clock reads it makes are less than 60 s apart. *)
Theorem plain_timestamp_never_expires viewer u (clock : nat → Z) k :
  userId u ≠ uid viewer →
  lastActive u = Nullish ∨ (∃ n, lastActive u = RawNumber n) →
  (clock (S k) - clock k < 60000)%Z →
  isActive viewer u clock k = Returned (true, S (S k)).
Proof.
  intros Hne Hla Hclock. unfold isActive.
  rewrite bool_decide_eq_false_2 by done.
  assert (resolveLastActive (lastActive u) clock k
          = Returned (Millis (clock k), S k)) as E
    by (by destruct Hla as [-> | [n ->]]).
  unfold bind. rewrite E. cbn [Date_now ret fresh]. unfold STALE.
  by rewrite bool_decide_eq_true_2.
Qed.

Lemma plain_timestamp_never_expires_witness :
  isActive (mkUser "me" None)
    (mkPresence "bob" "Bob" "#3b82f6" (Finite 0) (Finite 0) (RawNumber 0))
    (frozen 1700000000000) 0
  = Returned (true, 2).
Proof.
  apply plain_timestamp_never_expires.
  - discriminate.
  - right. by exists 0%Z.
  - reflexivity.
Defined.

End MorePresence.

(** * The board before debouncing *)

Section UndebouncedBoard.
Import DeltaBuffer Board.

Lemma v1_readOnly_step (s : BoardV1.State) (e : BoardV1.Event) :
  BoardV1.readOnly (BoardV1.step s e) = BoardV1.readOnly s.
Proof.
  destruct e as [n|k ok]; simpl.
  - unfold BoardV1.dispatch. destruct (BoardV1.readOnly s) eqn:E; [done|].
    by destruct (source n).
  - unfold BoardV1.settle. by case_bool_decide.
Qed.

Lemma v1_calls_run (s : BoardV1.State) (es : list BoardV1.Event) :
  BoardV1.calls (BoardV1.run s es)
  = if BoardV1.readOnly s then BoardV1.calls s
    else BoardV1.calls s ++ (BoardV1.toDelta <$> BoardV1.userChanges es).
Proof.
  revert s. induction es as [|e es IH]; intros s.
  - simpl. destruct (BoardV1.readOnly s); [done|]. by rewrite app_nil_r.
  - cbn [BoardV1.run foldl]. fold (BoardV1.run (BoardV1.step s e) es).
    rewrite IH, v1_readOnly_step.
    destruct (BoardV1.readOnly s) eqn:E.
    + destruct e as [n|k ok]; simpl.
      * unfold BoardV1.dispatch. by rewrite E.
      * unfold BoardV1.settle. by case_bool_decide.
    + destruct e as [n|k ok]; simpl.
      * unfold BoardV1.dispatch. rewrite E.
        destruct (source n); simpl; [|done]. by rewrite <- app_assoc.
      * unfold BoardV1.settle. by case_bool_decide.
Qed.

(** X19 — the undebounced listener pushes once per user notification.  On a
    writable board the calls of [updateWhiteboardShapes] are, in order, one
    for each user-sourced notification, made when it arrives and also when
    the notification is empty; remote notifications cause none, and a
    read-only board makes none at all. *)
Theorem v1_one_push_per_user_notification (es : list BoardV1.Event) :
  BoardV1.calls (BoardV1.run (BoardV1.init false) es)
  = BoardV1.toDelta <$> BoardV1.userChanges es
  ∧ BoardV1.calls (BoardV1.run (BoardV1.init true) es) = [].
Proof. by rewrite !v1_calls_run. Qed.

Lemma updatedRecords_nil : BoardV1.updatedRecords [] = ∅.
Proof. reflexivity. Qed.

Lemma updatedRecords_snoc (chs : list (TLRecord * option TLRecord))
    (ch : TLRecord * option TLRecord) :
  BoardV1.updatedRecords (chs ++ [ch])
  = match ch.2 with
    | Some next => <[id next := next]> (BoardV1.updatedRecords chs)
    | None => BoardV1.updatedRecords chs
    end.
Proof. unfold BoardV1.updatedRecords. by rewrite foldl_app. Qed.

Lemma handleUpdated_no_additions (p : PendingChangeSet)
    (chs : list (TLRecord * option TLRecord)) :
  added p = ∅ →
  added (foldl handleUpdated p chs) = ∅
  ∧ updated (foldl handleUpdated p chs)
    = foldl (λ m ch, match ch.2 with
                     | Some next => <[id next := next]> m
                     | None => m
                     end) (updated p) chs.
Proof.
  revert p. induction chs as [|[prev [next|]] chs IH]; intros p Ha; [done| |].
  - cbn [foldl].
    assert (handleUpdated p (prev, Some next)
            = mkPending (added p) (<[id next := next]> (updated p))
                (delete (id next) (removed p))) as ->.
    { unfold handleUpdated. cbn [snd]. by rewrite Ha. }
    by apply IH.
  - cbn [foldl]. by apply IH.
Qed.

(** X20 — the [updatedRecords] dictionary.  It stores each record under its
    own id; what it stores under an id is the new version of one of the
    reported updates; every reported update that has a new version leaves
    an entry under that version's id, the last such update winning; and it
    equals the [updated] dictionary the debounced listener builds from the
    same updates in an empty buffer. *)
Theorem updatedRecords_spec (chs : list (TLRecord * option TLRecord)) :
  keyed (BoardV1.updatedRecords chs)
  ∧ (∀ i r, BoardV1.updatedRecords chs !! i = Some r →
            ∃ prev, (prev, Some r) ∈ chs)
  ∧ (∀ prev r, (prev, Some r) ∈ chs →
               is_Some (BoardV1.updatedRecords chs !! id r))
  ∧ (∀ prev r, BoardV1.updatedRecords (chs ++ [(prev, Some r)]) !! id r
               = Some r)
  ∧ updated (absorb emptyPending (mkDiff [] chs [])) = BoardV1.updatedRecords chs.
Proof.
  split_and!.
  - induction chs as [|[prev [next|]] chs IH] using rev_ind.
    + intros i r. by rewrite updatedRecords_nil, lookup_empty.
    + rewrite updatedRecords_snoc. simpl. intros i r.
      destruct (decide (id next = i)) as [<-|Hne].
      * rewrite lookup_insert_eq. by intros [= <-].
      * rewrite lookup_insert_ne by done. apply IH.
    + by rewrite updatedRecords_snoc.
  - induction chs as [|[prev [next|]] chs IH] using rev_ind; intros i r.
    + by rewrite updatedRecords_nil, lookup_empty.
    + rewrite updatedRecords_snoc. simpl.
      destruct (decide (id next = i)) as [<-|Hne].
      * rewrite lookup_insert_eq. intros [= <-]. exists prev.
        apply elem_of_app. right. by apply list_elem_of_singleton.
      * rewrite lookup_insert_ne by done. intros H.
        destruct (IH i r H) as [prev' Hin]. exists prev'.
        apply elem_of_app. by left.
    + rewrite updatedRecords_snoc. simpl. intros H.
      destruct (IH i r H) as [prev' Hin]. exists prev'.
      apply elem_of_app. by left.
  - induction chs as [|[prev [next|]] chs IH] using rev_ind; intros prev' r Hin.
    + by apply elem_of_nil in Hin.
    + rewrite updatedRecords_snoc. simpl.
      destruct (decide (id next = id r)) as [->|Hne].
      * rewrite lookup_insert_eq. eauto.
      * rewrite lookup_insert_ne by done.
        apply elem_of_app in Hin as [Hin|Hin%list_elem_of_singleton].
        -- by eapply IH.
        -- injection Hin as _ <-. done.
    + rewrite updatedRecords_snoc. simpl.
      apply elem_of_app in Hin as [Hin|Hin%list_elem_of_singleton];
        [by eapply IH | discriminate Hin].
  - intros prev r. rewrite updatedRecords_snoc. simpl.
    apply lookup_insert_eq.
  - unfold absorb. cbn [chg_added chg_updated chg_removed foldl].
    by destruct (handleUpdated_no_additions emptyPending chs eq_refl) as [_ ->].
Qed.

Lemma updatedRecords_spec_witness :
  let a := mkRecord "1" "A" in
  let b := mkRecord "1" "B" in
  BoardV1.updatedRecords [(a, Some a); (a, None); (a, Some b)] !! "1" = Some b.
Proof.
  intros a b.
  destruct (updatedRecords_spec [(a, Some a); (a, None)]) as (_ & _ & _ & H & _).
  exact (H a b).
Defined.

End UndebouncedBoard.

(** * The error boundary *)

Section Boundary.
Import ErrorBoundary.

Lemma panelText_nonempty (st : State) : panelText st ≠ ""%string.
Proof.
  unfold panelText. destruct (error st) as [e|]; [|done].
  destruct (String.eqb (message e) "") eqn:E; [done|].
  by apply String.eqb_neq in E.
Qed.

(** X21 — when the boundary shows its fallback.  Starting from the initial
    state, after any sequence of caught errors and clicks on the retry
    button, the boundary renders its children unless the last event was a
    caught error; in that case it renders the custom fallback, when a
    non-empty one was given, and otherwise a panel whose text is that
    error's message or, for an empty message, the default text, so the
    panel text is never empty.  A retry leaves the stored error in place. *)
Theorem boundary_follows_last_event (props : Props) (evs : list Event) :
  (evs = [] → render props (run initial evs) = Children (children props))
  ∧ (∀ pre, evs = pre ++ [Retry] →
            render props (run initial evs) = Children (children props)
            ∧ error (run initial evs) = error (run initial pre))
  ∧ (∀ pre e, evs = pre ++ [Caught e] →
       error (run initial evs) = Some e
       ∧ render props (run initial evs)
         = match fallback props with
           | Some node => if String.eqb node "" then Panel (panelText (mkState true (Some e)))
                          else Fallback node
           | None => Panel (panelText (mkState true (Some e)))
           end)
  ∧ (∀ text, render props (run initial evs) = Panel text → text ≠ ""%string).
Proof.
  split_and!.
  - by intros ->.
  - intros pre ->. unfold run. rewrite foldl_app. done.
  - intros pre e ->. unfold run. rewrite foldl_app. done.
  - intros text. unfold render.
    destruct (hasError (run initial evs)); [|done].
    destruct (fallback props) as [node|].
    + destruct (String.eqb node ""); [|done].
      intros [= <-]. apply panelText_nonempty.
    + intros [= <-]. apply panelText_nonempty.
Qed.

Lemma boundary_follows_last_event_witness :
  let props := mkProps "board" None in
  render props (run initial [Caught (mkError ""); Retry; Caught (mkError "boom")])
  = Panel "boom"
  ∧ render props (run initial [Caught (mkError "boom"); Retry])
    = Children "board".
Proof.
  intros props. split.
  - destruct (boundary_follows_last_event props
                [Caught (mkError ""); Retry; Caught (mkError "boom")])
      as (_ & _ & H & _).
    destruct (H [Caught (mkError ""); Retry] (mkError "boom") eq_refl)
      as [_ ->]. reflexivity.
  - destruct (boundary_follows_last_event props
                [Caught (mkError "boom"); Retry]) as (_ & H & _).
    exact (proj1 (H [Caught (mkError "boom")] eq_refl)).
Defined.

End Boundary.

(** * Keys of the pushed dictionaries *)

Section Keys.
Import DeltaBuffer Board Lifecycle.
Implicit Types (s : State) (c : RecordsDiff) (p : PendingChangeSet)
  (m : gmap string TLRecord) (r : TLRecord).

Lemma keyed_insert m r : keyed m → keyed (<[id r := r]> m).
Proof.
  intros Hm i r'. destruct (decide (id r = i)) as [<-|Hne].
  - rewrite lookup_insert_eq. by intros [= <-].
  - rewrite lookup_insert_ne by done. apply Hm.
Qed.

Lemma keyed_delete m (i : string) : keyed m → keyed (delete i m).
Proof.
  intros Hm j r'. destruct (decide (i = j)) as [<-|Hne].
  - by rewrite lookup_delete_eq.
  - rewrite lookup_delete_ne by done. apply Hm.
Qed.

Lemma keyed_pending_empty : keyed_pending emptyPending.
Proof. split_and!; intros i r; simpl; by rewrite lookup_empty. Qed.

Lemma keyed_pending_absorb p c : keyed_pending p → keyed_pending (absorb p c).
Proof.
  intros Hp. unfold absorb.
  assert (keyed_pending (foldl handleAdded p (chg_added c))) as H1.
  { revert p Hp. induction (chg_added c) as [|r l IH]; intros p Hp; [done|].
    simpl. apply IH. destruct Hp as (Ha & Hu & Hr). unfold handleAdded.
    split_and!; simpl; [by apply keyed_insert | done | by apply keyed_delete]. }
  revert H1. generalize (foldl handleAdded p (chg_added c)). intros p1 H1.
  assert (keyed_pending (foldl handleUpdated p1 (chg_updated c))) as H2.
  { revert p1 H1. induction (chg_updated c) as [|[prev [next|]] l IH];
      intros p1 H1; [done| |].
    - simpl. apply IH. destruct H1 as (Ha & Hu & Hr). unfold handleUpdated.
      cbn [snd]. destruct (added p1 !! id next); split_and!; simpl;
        try done; by (apply keyed_insert || apply keyed_delete).
    - simpl. by apply IH. }
  revert H2. generalize (foldl handleUpdated p1 (chg_updated c)). intros p2 H2.
  revert p2 H2. induction (chg_removed c) as [|r l IH]; intros p2 H2; [done|].
  simpl. apply IH. destruct H2 as (Ha & Hu & Hr). unfold handleRemoved.
  destruct (added p2 !! id r); split_and!; simpl;
    try done; by (apply keyed_insert || apply keyed_delete).
Qed.

(** X22 — records are pushed under their own ids.  In every state a board
    can reach, each of the three dictionaries of the buffer, and of every
    snapshot the timer callback ever took, stores each record under the id
    the record itself carries. *)
Theorem snapshots_keyed (ro : bool) (es : list Event) :
  let s := run (init ro) es in
  keyed_pending (buffer s)
  ∧ Forall (λ f, keyed_pending (f_payload f)) (flushLog s).
Proof.
  cbn zeta.
  cut (let s := run (init ro) es in
       Forall keyed_pending (heap s)
       ∧ Forall (λ f, keyed_pending (f_payload f)) (flushLog s)).
  { cbn zeta. intros [Hh Hl]. split; [|done]. unfold buffer.
    destruct (heap (run (init ro) es) !! pendingChanges (run (init ro) es))
      as [p|] eqn:E; simpl; [|apply keyed_pending_empty].
    by eapply Forall_lookup_1. }
  assert (Forall keyed_pending (heap (init ro))
          ∧ Forall (λ f, keyed_pending (f_payload f)) (flushLog (init ro)))
    as H.
  { split; [|constructor]. constructor; [apply keyed_pending_empty|constructor]. }
  revert H. generalize (init ro).
  induction es as [|e es IH]; intros s H; [done|].
  cbn [run foldl]. apply IH. clear IH. destruct H as [Hh Hl]. split.
  - destruct e as [c|records|d|k ok]; cbn [step].
    + destruct (userEdit_frame s c) as (_ & _ & _ & _ & Hro & Hrw).
      destruct (readOnly s) eqn:E.
      * destruct (Hro eq_refl) as (-> & _). done.
      * destruct (Hrw eq_refl) as (-> & _).
        apply Forall_alter; [done|]. intros p _ Hp.
        by apply keyed_pending_absorb.
    + destruct (onRecords_frame s records) as (-> & _). done.
    + destruct (elapse_cases s d) as [(t & _ & _ & -> & _)|(_ & -> & _)];
        [|done].
      apply Forall_app. split; [done|].
      constructor; [apply keyed_pending_empty|constructor].
    + destruct (settle_frame s k ok) as (-> & _). done.
  - destruct (step_flushLog s e) as [-> | (t & _ & ->)]; [done|].
    apply Forall_app. split; [done|]. constructor; [|constructor].
    cbn [f_payload]. destruct (heap s !! captured t) as [p|] eqn:E; simpl.
    + by eapply Forall_lookup_1.
    + apply keyed_pending_empty.
Qed.

End Keys.
